(** * qutebrowser.commands.parser: a shallow embedding and its properties

    The development follows [src/qutebrowser/commands/parser.py].  Python
    strings are modelled as [string] (characters are code points below 256),
    lists as [list], [None]-or-value as [option], raised exceptions as the
    [Raise] branch of [result], and the generator [_parse_all_gen] as the
    trace it produces when run to exhaustion. *)

From Stdlib Require Import String Ascii List Bool Arith Lia Permutation Sorted.
Import ListNotations.
Open Scope list_scope.
Open Scope string_scope.

(** ** Python [str] operations used by the parser *)

Module PyStr.

(** [str.isspace] on one character: TAB..CR, FS..US, SPACE, NEL and NBSP. *)
Definition is_space (c : ascii) : bool :=
  let n := nat_of_ascii c in
  (((9 <=? n) && (n <=? 13)) || ((28 <=? n) && (n <=? 32))
   || (n =? 133) || (n =? 160))%nat.

Definition is_empty (s : string) : bool :=
  match s with EmptyString => true | String _ _ => false end.

Fixpoint lstrip_by (p : ascii -> bool) (s : string) : string :=
  match s with
  | EmptyString => EmptyString
  | String c s' => if p c then lstrip_by p s' else s
  end.

Fixpoint rstrip_by (p : ascii -> bool) (s : string) : string :=
  match s with
  | EmptyString => EmptyString
  | String c s' =>
      match rstrip_by p s' with
      | EmptyString => if p c then EmptyString else String c EmptyString
      | r => String c r
      end
  end.

(** [s.strip()] *)
Definition strip (s : string) : string :=
  rstrip_by is_space (lstrip_by is_space s).

(** [s.lstrip(':')] *)
Definition lstrip_colon (s : string) : string :=
  lstrip_by (Ascii.eqb ":") s.

(** The longest prefix of non-whitespace characters, and what follows it. *)
Fixpoint span_word (s : string) : string * string :=
  match s with
  | EmptyString => (EmptyString, EmptyString)
  | String c s' =>
      if is_space c then (EmptyString, s)
      else let (w, r) := span_word s' in (String c w, r)
  end.

(** [s.split(maxsplit=1)]: whitespace is skipped, one word is cut, the
    whitespace after it is skipped and the remainder, if any, is kept whole. *)
Definition split_maxsplit1 (s : string) : list string :=
  match lstrip_by is_space s with
  | EmptyString => []
  | s1 =>
      let (w, r) := span_word s1 in
      match lstrip_by is_space r with
      | EmptyString => [w]
      | r' => [w; r']
      end
  end.

(** [s.partition(' ')] *)
Fixpoint partition_space (s : string) : string * string * string :=
  match s with
  | EmptyString => (EmptyString, EmptyString, EmptyString)
  | String c s' =>
      if Ascii.eqb c " " then (EmptyString, " ", s')
      else let '(a, sep, b) := partition_space s' in (String c a, sep, b)
  end.

(** [s.endswith(' ')] *)
Fixpoint endswith_space (s : string) : bool :=
  match s with
  | EmptyString => false
  | String c EmptyString => Ascii.eqb c " "
  | String _ s' => endswith_space s'
  end.

(** [s.startswith('-')] *)
Definition startswith_dash (s : string) : bool :=
  match s with
  | String c _ => Ascii.eqb c "-"
  | EmptyString => false
  end.

(** [sub in s] *)
Fixpoint contains (sub s : string) : bool :=
  prefix sub s
  || match s with
     | EmptyString => false
     | String _ s' => contains sub s'
     end.

(** [s.split(sep)] for a non-empty [sep]: [skip] counts the characters of
    a separator just matched that are still to be dropped, [cur] is the
    piece being collected. *)
Fixpoint split_go (sep : string) (skip : nat) (cur s : string) : list string :=
  match s with
  | EmptyString => [cur]
  | String c s' =>
      match skip with
      | S k => split_go sep k cur s'
      | O =>
          if prefix sep s
          then cur :: split_go sep (String.length sep - 1) EmptyString s'
          else split_go sep 0 (cur ++ String c EmptyString) s'
      end
  end.

Definition split_on (sep s : string) : list string := split_go sep 0 "" s.

(** [sorted(names, key=len)]: Python's sort is stable, so names of equal
    length keep the order they are iterated in.  A name is inserted in
    front of the names sorted after it that are at least as long. *)
Fixpoint insert_by_len (x : string) (l : list string) : list string :=
  match l with
  | [] => [x]
  | y :: l' =>
      if (String.length x <=? String.length y)%nat then x :: l
      else y :: insert_by_len x l'
  end.

Fixpoint sorted_by_len (l : list string) : list string :=
  match l with
  | [] => []
  | x :: l' => insert_by_len x (sorted_by_len l')
  end.

(** The order [sorted(names, key=len)] sorts by, and the names of one
    length. *)
Definition len_le (a b : string) : Prop :=
  String.length a <= String.length b.

Definition has_len (k : nat) (n : string) : bool :=
  (String.length n =? k)%nat.

(** [d.get(k)] on a dict kept as the list of its items in iteration order. *)
Fixpoint lookup {A : Type} (k : string) (d : list (string * A)) : option A :=
  match d with
  | [] => None
  | (k', v) :: d' => if String.eqb k k' then Some v else lookup k d'
  end.

(** [x in l] for a list of strings. *)
Definition mem (x : string) (l : list string) : bool :=
  existsb (String.eqb x) l.

End PyStr.
Import PyStr.

(** ** Data model *)

(** The exceptions the parser can end with.  [cmdexc.NoSuchCommandError]
    carries its message; the other three are Python's own. *)
Inductive exn : Type :=
| NoSuchCommandError (msg : string)
| AttributeError
| IndexError
| TypeError.

Inductive result (A : Type) : Type :=
| Ok (a : A)
| Raise (e : exn).
Arguments Ok {A} a.
Arguments Raise {A} e.

Definition bind {A B : Type} (r : result A) (k : A -> result B) : result B :=
  match r with
  | Ok a => k a
  | Raise e => Raise e
  end.

Notation "x <- r ;; k" := (bind r (fun x => k))
  (at level 61, r at next level, right associativity).

(** The two error kinds of the specification are the two messages
    [NoSuchCommandError] is raised with. *)
Definition EmptyInput : exn := NoSuchCommandError "No command given".
Definition UnknownCommand (name : string) : exn :=
  NoSuchCommandError (name ++ ": no such command").

(** What the parser reads of a registered command. *)
Record Command : Type := mkCommand {
  name : string;
  maxsplit : option nat;
  no_cmd_split : bool;
  flags_with_args : list string
}.

Record ParseResult : Type := mkParseResult {
  cmd : option Command;
  args : option (list string);
  cmdline : list string
}.

(** [qutebrowser.misc.split], the raw tokenizer the parser calls:
    [split s keep] is [split.split(s, keep=keep)] and
    [simple_split s keep m] is [split.simple_split(s, keep=keep, maxsplit=m)]. *)
Class Tokenizer : Type := {
  split : string -> bool -> list string;
  simple_split : string -> bool -> option nat -> list string
}.

(** The parser object: its only attribute. *)
Record CommandParser : Type := mkCommandParser {
  _partial_match : bool
}.

(** ** The parser *)

Section Parser.

Context {tokenizer : Tokenizer}.

(** [objects.commands]: the registry, as the items of the dict in
    iteration order. *)
Variable commands : list (string * Command).

Variable self : CommandParser.

(** [aliases] is the list of the items of the alias dict; [default] may be
    [None]. *)
Definition _get_alias (text : string) (aliases : list (string * string))
    (default : option string) : result (option string) :=
  match split_maxsplit1 (strip text) with
  | [] => Raise IndexError
  | head :: rest =>
      match lookup head aliases with
      | None => Ok default
      | Some alias =>
          let new_cmd :=
            match rest with
            | r :: _ => alias ++ " " ++ r
            | [] => alias
            end in
          Ok (Some (if endswith_space text then new_cmd ++ " " else new_cmd))
      end
  end.

(** The list comprehension of [_completion_match]. *)
Definition matches (cmdstr : string) : list string :=
  filter (contains cmdstr) (sorted_by_len (map fst commands)).

Definition _completion_match (cmdstr : string) (best : bool) : string :=
  let ms := matches cmdstr in
  if (List.length ms =? 1)%nat then hd cmdstr ms
  else if (1 <? List.length ms)%nat && best then hd cmdstr ms
  else cmdstr.

(** The loop of [_split_args] over [enumerate(split_args)], from index
    [i] on; [all] is the whole first split, returned when only flags are
    left. *)
Fixpoint scan_flags (c : Command) (m : nat) (argstr : string) (keep : bool)
    (all rest : list string) (i flag_arg_count : nat) : list string :=
  match rest with
  | [] => all
  | arg :: rest' =>
      let arg := strip arg in
      if startswith_dash arg then
        scan_flags c m argstr keep all rest' (S i)
          (if mem arg (flags_with_args c)
           then S flag_arg_count else flag_arg_count)
      else simple_split argstr keep (Some (i + m + flag_arg_count))
  end.

Definition _split_args (c : Command) (argstr : string) (keep : bool)
    : list string :=
  if is_empty argstr then []
  else
    match maxsplit c with
    | None => split argstr keep
    | Some m =>
        let split_args := simple_split argstr keep None in
        scan_flags c m argstr keep split_args split_args 0 0
    end.

(** The [if keep and args: ... elif keep: ... else: ...] of [parse] that
    builds [cmdline]. *)
Definition assemble_cmdline (keep : bool) (cmdstr sep : string)
    (args : list string) : list string :=
  if keep then
    match args with
    | a :: args' => cmdstr :: (sep ++ a) :: args'
    | [] => [cmdstr; sep]
    end
  else cmdstr :: args.

(** The command token [parse] looks up: the typed one, or what the
    matcher made of it when partial matching is on. *)
Definition resolved_token (cmdstr : string) (best_match : bool) : string :=
  if _partial_match self then _completion_match cmdstr best_match
  else cmdstr.

Definition parse (text : string) (fallback keep best_match : bool)
    : result ParseResult :=
  let '(cmdstr, sep, argstr) := partition_space text in
  if is_empty cmdstr && negb fallback then Raise EmptyInput
  else
    let cmdstr :=
      if _partial_match self then _completion_match cmdstr best_match
      else cmdstr in
    match lookup cmdstr commands with
    | None =>
        if negb fallback then Raise (UnknownCommand cmdstr)
        else Ok (mkParseResult None None (split text keep))
    | Some c =>
        let args := _split_args c argstr keep in
        let cmdline := assemble_cmdline keep cmdstr sep args in
        Ok (mkParseResult (Some c) (Some args) cmdline)
    end.

(** The [for sub in sub_texts: yield self.parse(sub, ...)] loop: the
    results yielded, and the exception that ended the generator if one
    did. *)
Fixpoint yield_each (fallback keep best_match : bool) (sub_texts : list string)
    : list ParseResult * option exn :=
  match sub_texts with
  | [] => ([], None)
  | sub :: rest =>
      match parse sub fallback keep best_match with
      | Raise e => ([], Some e)
      | Ok r =>
          let (ys, e) := yield_each fallback keep best_match rest in
          (r :: ys, e)
      end
  end.

(** [parses subs rs]: every text of [subs] parses, to the result at the
    same place in [rs]. *)
Definition parses (fallback keep best_match : bool)
    : list string -> list ParseResult -> Prop :=
  Forall2 (fun sub r => parse sub fallback keep best_match = Ok r).

(** [text.strip().lstrip(':').strip()] *)
Definition normalise (text : string) : string :=
  strip (lstrip_colon (strip text)).

(** [if aliases: text = self._get_alias(text, aliases, text)]; an empty
    [aliases] stands for both [None] and the empty dict. *)
Definition resolve_aliases (text : string) (aliases : list (string * string))
    : result (option string) :=
  match aliases with
  | [] => Ok (Some text)
  | _ => _get_alias text aliases (Some text)
  end.

(** The part of [_parse_all_gen] before its loop: the texts the loop will
    parse.  [_get_alias] returns its default, here the text, or a new
    string; were it [None], [';;' in text] would raise [TypeError]. *)
Definition sub_texts_of (text : string) (fallback keep best_match : bool)
    (aliases : list (string * string)) : result (list string) :=
  let text := normalise text in
  if is_empty text then Raise EmptyInput
  else
    text <- resolve_aliases text aliases ;;
    match text with
    | None => Raise TypeError
    | Some text =>
        if contains ";;" text then
          let first := hd "" (split_on ";;" text) in
          result <- parse first fallback keep best_match ;;
          match cmd result with
          | None => Raise AttributeError
          | Some c =>
              if no_cmd_split c then Ok [text]
              else Ok (map strip (split_on ";;" text))
          end
        else Ok [text]
    end.

(** The generator run to exhaustion: what it yields, in order, and the
    exception it raised, if any. *)
Definition _parse_all_gen (text : string) (fallback keep best_match : bool)
    (aliases : list (string * string)) : list ParseResult * option exn :=
  match sub_texts_of text fallback keep best_match aliases with
  | Raise e => ([], Some e)
  | Ok sub_texts => yield_each fallback keep best_match sub_texts
  end.

(** [list(self._parse_all_gen(...))] *)
Definition parse_all (text : string) (fallback keep best_match : bool)
    (aliases : list (string * string)) : result (list ParseResult) :=
  match _parse_all_gen text fallback keep best_match aliases with
  | (ys, None) => Ok ys
  | (_, Some e) => Raise e
  end.

End Parser.

(** ** The raw tokenizer *)

Module RawTokenizer.

(** Modelled from the spec: the optional bound of the raw tokenizer is
    reached when no token is left to be cut. *)
Definition exhausted (bound : option nat) : bool :=
  match bound with
  | Some 0 => true
  | _ => false
  end.

(** Modelled from the spec: the text left when the bound is reached is
    joined into one final token; in the plain mode the whitespace around
    it is dropped and the whitespace inside it is kept. *)
Definition final_token (s : string) : list string :=
  let t := strip s in if is_empty t then [] else [t].

(** Modelled from the spec: the plain mode of the raw tokenizer
    ([qutebrowser.misc.split], which is not among the sources).  Tokens are
    the maximal runs of non-whitespace characters, in order; [bound] is the
    number of tokens still to be cut before the rest of the text becomes
    the final token.  Quoting and escaping are left out: the model stands
    for the tokenizer on texts without quote and escape characters. *)
Fixpoint tokens_plain (bound : option nat) (cur s : string) : list string :=
  match s with
  | EmptyString => if is_empty cur then [] else [cur]
  | String c s' =>
      if is_space c then
        if is_empty cur then tokens_plain bound "" s'
        else
          let bound' := option_map pred bound in
          if exhausted bound' then cur :: final_token s'
          else cur :: tokens_plain bound' "" s'
      else tokens_plain bound (cur ++ String c "") s'
  end.

(** Modelled from the spec: the mode of the raw tokenizer that keeps the
    separators.  Every run of whitespace stays in the output, in front of
    the token that follows it (the parser puts the first separator in
    front of the first argument in the same way); whitespace at the end is
    a token of its own.  [in_word] says whether [cur] already holds a
    non-whitespace character. *)
Fixpoint tokens_keep (bound : option nat) (cur : string) (in_word : bool)
    (s : string) : list string :=
  match s with
  | EmptyString => if is_empty cur then [] else [cur]
  | String c s' =>
      if is_space c && in_word then
        let bound' := option_map pred bound in
        if exhausted bound' then [cur; s]
        else cur :: tokens_keep bound' (String c "") false s'
      else
        tokens_keep bound (cur ++ String c "")
          (in_word || negb (is_space c)) s'
  end.

(** Modelled from the spec: the raw tokenizer with its two options, the
    mode that keeps separators and the optional bound: with bound [b] the
    first [b] tokens are cut and everything after them is one final
    token. *)
Definition raw_tokenize (s : string) (keep : bool) (bound : option nat)
    : list string :=
  if keep then
    if exhausted bound then (if is_empty s then [] else [s])
    else tokens_keep bound "" false s
  else
    if exhausted bound then final_token s
    else tokens_plain bound "" s.

(** Modelled from the spec: [split.split] is the raw tokenizer without
    bound, [split.simple_split] the raw tokenizer with its optional bound. *)
#[export] Instance whitespace_tokenizer : Tokenizer := {|
  split := fun s keep => raw_tokenize s keep None;
  simple_split := raw_tokenize
|}.

End RawTokenizer.
Import RawTokenizer.

(** ** The specification's wording, for comparison *)

Module Spec.

(** The matcher as the specification words it: the registered names that
    contain the typed token, by ascending length, names of equal length in
    lexical order. *)
Definition len_lex_leb (x y : string) : bool :=
  (String.length x <? String.length y)%nat
  || ((String.length x =? String.length y)%nat && String.leb x y).

Fixpoint insert_len_lex (x : string) (l : list string) : list string :=
  match l with
  | [] => [x]
  | y :: l' => if len_lex_leb x y then x :: l else y :: insert_len_lex x l'
  end.

Definition sorted_len_lex (l : list string) : list string :=
  fold_right insert_len_lex [] l.

Definition spec_completion_match (names : list string) (prefix : string)
    (preferBest : bool) : string :=
  match filter (contains prefix) (sorted_len_lex names) with
  | [m] => m
  | m :: _ :: _ => if preferBest then m else prefix
  | [] => prefix
  end.

(** The display tokens joined with single spaces, as the round-trip
    sentence of the specification has it. *)
Definition join_with_spaces (tokens : list string) : string :=
  String.concat " " tokens.

(** The whitespace a text ends with: what [rstrip] would remove. *)
Fixpoint trailing_whitespace (s : string) : string :=
  match s with
  | EmptyString => EmptyString
  | String _ s' =>
      match rstrip_by is_space s with
      | EmptyString => s
      | _ => trailing_whitespace s'
      end
  end.

End Spec.

(** ** Fixtures: the registries and commands of the examples *)

Module Fixtures.

Definition tab : string := String (ascii_of_nat 9) "".

Definition cmd_open : Command := mkCommand "open" None false [].
Definition cmd_open_nosplit : Command := mkCommand "open" None true [].
Definition cmd_open_file : Command := mkCommand "open-file" None false [].
Definition cmd_bounded2 : Command := mkCommand "run" (Some 2) false ["-v"].
Definition cmd_bounded0 : Command := mkCommand "run" (Some 0) false ["-v"].

Definition registry : list (string * Command) :=
  [("open", cmd_open); ("open-file", cmd_open_file); ("run", cmd_bounded2)].
Definition registry_nosplit : list (string * Command) :=
  [("open", cmd_open_nosplit)].
Definition registry_tie : list (string * Command) :=
  [("ob", cmd_open); ("oa", cmd_open)].

Definition exact : CommandParser := mkCommandParser false.
Definition partial : CommandParser := mkCommandParser true.

End Fixtures.

(** ** Counting in the flag scan *)

(** The flags among [flags] that [cmd.flags_with_args] lists, as the loop
    of [_split_args] counts them: each is stripped before it is looked up. *)
Definition flag_args_among (c : Command) (flags : list string) : nat :=
  List.length (filter (fun a => mem (strip a) (flags_with_args c)) flags).

(** A token the loop of [_split_args] takes for a flag. *)
Definition is_flag (a : string) : bool := startswith_dash (strip a).

(** ** Trimmed texts *)

(** A text of whitespace characters only. *)
Fixpoint all_space (s : string) : bool :=
  match s with
  | EmptyString => true
  | String c s' => is_space c && all_space s'
  end.

(** [trimmed_of p s]: [s] is [p] without the whitespace around it: [p] is
    [s] between two runs of whitespace, and [s] neither starts nor ends
    with a whitespace character. *)
Definition trimmed_of (p s : string) : Prop :=
  (exists l r, p = l ++ s ++ r /\ all_space l = true /\ all_space r = true)
  /\ (forall c s', s = String c s' -> is_space c = false)
  /\ (forall s' c, s = s' ++ String c "" -> is_space c = false).

(** * Properties

    Inside the sections below the tokenizer is arbitrary.  The closed
    examples outside them run on [whitespace_tokenizer], the instance in
    scope there. *)

(** ** Facts about the string operations *)


Lemma is_empty_false (s : string) : is_empty s = false <-> s <> "".
Proof. destruct s; simpl; split; congruence. Qed.

Lemma append_empty_r (s : string) : s ++ "" = s.
Proof. induction s as [|c s IH]; simpl; [reflexivity | now rewrite IH]. Qed.

Lemma append_assoc (a b c : string) : (a ++ b) ++ c = a ++ b ++ c.
Proof. induction a as [|x a IH]; simpl; [reflexivity | now rewrite IH]. Qed.

(** [partition] cuts the text: the three parts put together are the text. *)
Lemma partition_space_app (s cmdstr sep argstr : string) :
  partition_space s = (cmdstr, sep, argstr) -> s = cmdstr ++ sep ++ argstr.
Proof.
  revert cmdstr sep argstr.
  induction s as [|c s IH]; simpl; intros cmdstr sep argstr H.
  - now inversion H.
  - destruct (Ascii.eqb_spec c " ") as [->|_].
    + now inversion H.
    + destruct (partition_space s) as [[a sp] b].
      inversion H; subst; simpl.
      now rewrite <- (IH a sep argstr eq_refl).
Qed.

(** Without a space there is no separator and no argument string. *)
Lemma partition_space_no_sep (s cmdstr argstr : string) :
  partition_space s = (cmdstr, "", argstr) -> argstr = "" /\ cmdstr = s.
Proof.
  revert cmdstr argstr.
  induction s as [|c s IH]; simpl; intros cmdstr argstr H.
  - now inversion H.
  - destruct (Ascii.eqb_spec c " ") as [->|_]; [discriminate|].
    destruct (partition_space s) as [[a sp] b].
    inversion H; subst.
    destruct (IH a argstr eq_refl) as [-> ->]. now split.
Qed.

Lemma concat_empty_cons (x : string) (l : list string) :
  String.concat "" (x :: l) = x ++ String.concat "" l.
Proof.
  destruct l as [|y l]; simpl; [now rewrite append_empty_r | reflexivity].
Qed.

Lemma length_append (a b : string) :
  String.length (a ++ b) = String.length a + String.length b.
Proof. induction a as [|x a IH]; simpl; [reflexivity | now rewrite IH]. Qed.

(** ** Facts about the exceptions *)

Lemma UnknownCommand_not_EmptyInput (n : string) : UnknownCommand n <> EmptyInput.
Proof.
  unfold UnknownCommand, EmptyInput. intros H. inversion H as [H1]. clear H.
  assert (L : String.length (n ++ ": no such command") = String.length "No command given")
    by now rewrite H1.
  rewrite length_append in L. simpl in L.
  lia.
Qed.

Lemma AttributeError_not_NoSuchCommand (msg : string) :
  AttributeError <> NoSuchCommandError msg.
Proof. discriminate. Qed.

(** ** Single-command parse *)

Section ParseFacts.

Context {tokenizer : Tokenizer}.
Variable commands : list (string * Command).
Variable self : CommandParser.

Lemma parse_empty_token text keep best_match :
  fst (fst (partition_space text)) = "" ->
  parse commands self text false keep best_match = Raise EmptyInput.
Proof.
  unfold parse. destruct (partition_space text) as [[cmdstr sep] argstr].
  simpl. now intros ->.
Qed.

Lemma parse_unknown_fallback text cmdstr sep argstr keep best_match :
  partition_space text = (cmdstr, sep, argstr) ->
  lookup (resolved_token commands self cmdstr best_match) commands = None ->
  parse commands self text true keep best_match
  = Ok (mkParseResult None None (split text keep)).
Proof.
  unfold parse, resolved_token. intros -> H.
  rewrite andb_false_r. now rewrite H.
Qed.

Lemma parse_unknown_strict text cmdstr sep argstr keep best_match :
  partition_space text = (cmdstr, sep, argstr) ->
  cmdstr <> "" ->
  lookup (resolved_token commands self cmdstr best_match) commands = None ->
  parse commands self text false keep best_match
  = Raise (UnknownCommand (resolved_token commands self cmdstr best_match)).
Proof.
  unfold parse, resolved_token. intros -> Hne H.
  apply is_empty_false in Hne. rewrite Hne. simpl. now rewrite H.
Qed.

(** What a successful parse returns, by the two ways it can succeed. *)
Lemma parse_ok_inv text fallback keep best_match r :
  parse commands self text fallback keep best_match = Ok r ->
  let '(cmdstr, sep, argstr) := partition_space text in
  let token := resolved_token commands self cmdstr best_match in
  (lookup token commands = None /\ fallback = true
   /\ r = mkParseResult None None (split text keep))
  \/ (exists c, lookup token commands = Some c
      /\ r = mkParseResult (Some c) (Some (_split_args c argstr keep))
               (assemble_cmdline keep token sep (_split_args c argstr keep))).
Proof.
  unfold parse, resolved_token.
  destruct (partition_space text) as [[cmdstr sep] argstr].
  destruct (is_empty cmdstr && negb fallback); [discriminate|].
  destruct (lookup _ commands) as [c|] eqn:L.
  - intros H. inversion H; subst. right. exists c. split; reflexivity.
  - destruct fallback; simpl; [|discriminate].
    intros H. inversion H; subst. left. repeat split; reflexivity.
Qed.

End ParseFacts.

Section ParseClaims.

Context {tokenizer : Tokenizer}.
Variable commands : list (string * Command).
Variable self : CommandParser.

Lemma assemble_cmdline_nonempty keep cmdstr sep args :
  assemble_cmdline keep cmdstr sep args <> [].
Proof.
  unfold assemble_cmdline. destruct keep; [destruct args|]; discriminate.
Qed.

(** C7, as amended: when the command token [parse] looks up is not in the
    registry, [parse] with [fallback=True] returns a result without
    command and arguments whose [cmdline] is the raw tokenization of the
    whole text (with the [keep] given); with [fallback=False] it raises
    UnknownCommand carrying the looked-up token when the typed token is
    not empty, and EmptyInput when it is empty. *)
Theorem parse_unknown_command text cmdstr sep argstr keep best_match :
  partition_space text = (cmdstr, sep, argstr) ->
  lookup (resolved_token commands self cmdstr best_match) commands = None ->
  parse commands self text true keep best_match
  = Ok (mkParseResult None None (split text keep))
  /\ (cmdstr <> "" ->
      parse commands self text false keep best_match
      = Raise (UnknownCommand (resolved_token commands self cmdstr best_match)))
  /\ (cmdstr = "" ->
      parse commands self text false keep best_match = Raise EmptyInput).
Proof.
  intros P L. split; [|split].
  - eapply parse_unknown_fallback; eassumption.
  - intros Hne. eapply parse_unknown_strict; eassumption.
  - intros ->. apply parse_empty_token. now rewrite P.
Qed.

(** C9, as amended: in every result [parse] returns, an absent command
    comes with absent arguments and with the raw tokenization of the text
    as [cmdline] (which is empty when the text has no token), and a
    present command comes with present arguments and a non-empty
    [cmdline] that starts with the command token. *)
Theorem parse_result_invariant text fallback keep best_match r :
  parse commands self text fallback keep best_match = Ok r ->
  (cmd r = None -> args r = None /\ cmdline r = split text keep)
  /\ (forall c, cmd r = Some c ->
      (exists a, args r = Some a)
      /\ cmdline r <> []
      /\ hd_error (cmdline r)
         = Some (resolved_token commands self
                   (fst (fst (partition_space text))) best_match)).
Proof.
  intros H. apply parse_ok_inv in H.
  destruct (partition_space text) as [[cmdstr sep] argstr]. simpl.
  destruct H as [(_ & _ & ->) | (c & _ & ->)]; simpl.
  - split; [now split | discriminate].
  - split; [discriminate|].
    intros c' _. split; [eauto|]. split.
    + apply assemble_cmdline_nonempty.
    + unfold assemble_cmdline.
      destruct keep; [destruct (_split_args c argstr true)|]; reflexivity.
Qed.

End ParseClaims.

(** C7, at a text with an empty command token: the token is not
    registered, and the strict parse raises EmptyInput, which is not
    UnknownCommand of the empty token. *)
Lemma parse_unknown_command_empty_token :
  lookup (resolved_token Fixtures.registry Fixtures.exact "" false)
    Fixtures.registry = None
  /\ parse Fixtures.registry Fixtures.exact "" false false false
     = Raise EmptyInput
  /\ EmptyInput <> UnknownCommand "".
Proof.
  split; [reflexivity|]. split; [reflexivity|].
  intros H. symmetry in H. revert H. apply UnknownCommand_not_EmptyInput.
Qed.

Lemma parse_unknown_command_witness :
  parse Fixtures.registry Fixtures.exact "notacommand arg" true false false
  = Ok (mkParseResult None None ["notacommand"; "arg"])
  /\ parse Fixtures.registry Fixtures.exact "notacommand arg" false false false
     = Raise (UnknownCommand "notacommand").
Proof.
  destruct (parse_unknown_command Fixtures.registry Fixtures.exact
              "notacommand arg" "notacommand" " " "arg" false false
              eq_refl eq_refl) as (H1 & H2 & _).
  split.
  - exact H1.
  - apply H2. discriminate.
Defined.

(** C9, at the empty text with [fallback=True]: the result has no command
    and its [cmdline] is empty. *)
Lemma parse_result_empty_cmdline :
  parse Fixtures.registry Fixtures.exact "" true false false
  = Ok (mkParseResult None None []).
Proof. reflexivity. Qed.

Lemma parse_result_invariant_witness :
  parse Fixtures.registry Fixtures.exact "open foo" false false false
  = Ok (mkParseResult (Some Fixtures.cmd_open) (Some ["foo"]) ["open"; "foo"])
  /\ (exists a, args (mkParseResult (Some Fixtures.cmd_open) (Some ["foo"])
                        ["open"; "foo"]) = Some a)
  /\ cmdline (mkParseResult (Some Fixtures.cmd_open) (Some ["foo"])
                ["open"; "foo"]) <> [].
Proof.
  assert (E : parse Fixtures.registry Fixtures.exact "open foo" false false false
              = Ok (mkParseResult (Some Fixtures.cmd_open) (Some ["foo"])
                      ["open"; "foo"])) by reflexivity.
  destruct (parse_result_invariant Fixtures.registry Fixtures.exact
              "open foo" false false false _ E) as (_ & H).
  destruct (H Fixtures.cmd_open eq_refl) as (Ha & Hc & _).
  split; [exact E | split; assumption].
Defined.

(** ** Compound parse *)

Section ParseAllFacts.

Context {tokenizer : Tokenizer}.
Variable commands : list (string * Command).
Variable self : CommandParser.

Lemma yield_each_ok fallback keep best_match subs rs :
  parses commands self fallback keep best_match subs rs ->
  yield_each commands self fallback keep best_match subs = (rs, None).
Proof.
  induction 1 as [|sub r subs rs Hsub _ IH]; simpl.
  - reflexivity.
  - now rewrite Hsub, IH.
Qed.

(** The loop stops at the first text that does not parse: what comes
    after it plays no part. *)
Lemma yield_each_raise fallback keep best_match pre sub post rs e :
  parses commands self fallback keep best_match pre rs ->
  parse commands self sub fallback keep best_match = Raise e ->
  yield_each commands self fallback keep best_match (pre ++ sub :: post)%list
  = (rs, Some e).
Proof.
  intros Hpre Hsub.
  induction Hpre as [|p r pre rs Hp _ IH]; simpl.
  - now rewrite Hsub.
  - now rewrite Hp, IH.
Qed.

Lemma sub_texts_of_empty text fallback keep best_match aliases :
  normalise text = "" ->
  sub_texts_of commands self text fallback keep best_match aliases
  = Raise EmptyInput.
Proof. unfold sub_texts_of. now intros ->. Qed.

Lemma parse_all_empty text fallback keep best_match aliases :
  normalise text = "" ->
  _parse_all_gen commands self text fallback keep best_match aliases
  = ([], Some EmptyInput)
  /\ parse_all commands self text fallback keep best_match aliases
     = Raise EmptyInput.
Proof.
  intros H. unfold parse_all, _parse_all_gen.
  now rewrite (sub_texts_of_empty _ _ _ _ _ H).
Qed.

(** The texts the loop parses when the line holds the delimiter, by what
    the parse of the first segment returns. *)
Lemma sub_texts_of_compound text fallback keep best_match aliases t :
  normalise text <> "" ->
  resolve_aliases (normalise text) aliases = Ok (Some t) ->
  contains ";;" t = true ->
  sub_texts_of commands self text fallback keep best_match aliases
  = match parse commands self (hd "" (split_on ";;" t))
            fallback keep best_match with
    | Raise e => Raise e
    | Ok r =>
        match cmd r with
        | None => Raise AttributeError
        | Some c =>
            if no_cmd_split c then Ok [t]
            else Ok (map strip (split_on ";;" t))
        end
    end.
Proof.
  intros Hne Hres Hin. unfold sub_texts_of.
  apply is_empty_false in Hne. rewrite Hne, Hres. simpl. rewrite Hin.
  now destruct (parse _ _ _ _ _ _).
Qed.

Lemma sub_texts_of_single text fallback keep best_match aliases t :
  normalise text <> "" ->
  resolve_aliases (normalise text) aliases = Ok (Some t) ->
  contains ";;" t = false ->
  sub_texts_of commands self text fallback keep best_match aliases = Ok [t].
Proof.
  intros Hne Hres Hin. unfold sub_texts_of.
  apply is_empty_false in Hne. rewrite Hne, Hres. simpl. now rewrite Hin.
Qed.

(** With [fallback=True] and a first segment whose command token is not
    registered, the look at [result.cmd.no_cmd_split] fails. *)
Lemma parse_all_fallback_unknown_first text keep best_match aliases t
    cmdstr sep argstr :
  normalise text <> "" ->
  resolve_aliases (normalise text) aliases = Ok (Some t) ->
  contains ";;" t = true ->
  partition_space (hd "" (split_on ";;" t)) = (cmdstr, sep, argstr) ->
  lookup (resolved_token commands self cmdstr best_match) commands = None ->
  parse_all commands self text true keep best_match aliases
  = Raise AttributeError.
Proof.
  intros Hne Hres Hin Hp Hl. unfold parse_all, _parse_all_gen.
  rewrite (sub_texts_of_compound _ _ _ _ _ _ Hne Hres Hin).
  now rewrite (parse_unknown_fallback _ _ _ _ _ _ _ _ Hp Hl).
Qed.

End ParseAllFacts.

Section ParseAllClaims.

Context {tokenizer : Tokenizer}.
Variable commands : list (string * Command).
Variable self : CommandParser.

(** C2, as amended: the sub-commands of a line are parsed from left to
    right; when all of them parse, [parse_all] returns their results in
    that order, and when one does not, the generator has yielded the
    results of those before it and ends with its exception, which
    [parse_all] raises: whatever follows the failing sub-command is not
    parsed and changes nothing. *)
Theorem parse_all_stops_at_first_failure text fallback keep best_match
    aliases subs :
  sub_texts_of commands self text fallback keep best_match aliases = Ok subs ->
  (forall rs,
      parses commands self fallback keep best_match subs rs ->
      _parse_all_gen commands self text fallback keep best_match aliases
      = (rs, None)
      /\ parse_all commands self text fallback keep best_match aliases = Ok rs)
  /\ (forall pre sub post rs e,
        subs = (pre ++ sub :: post)%list ->
        parses commands self fallback keep best_match pre rs ->
        parse commands self sub fallback keep best_match = Raise e ->
        _parse_all_gen commands self text fallback keep best_match aliases
        = (rs, Some e)
        /\ parse_all commands self text fallback keep best_match aliases
           = Raise e).
Proof.
  intros Hsubs. unfold parse_all, _parse_all_gen. rewrite Hsubs. split.
  - intros rs Hrs. now rewrite (yield_each_ok _ _ _ _ _ _ _ Hrs).
  - intros pre sub post rs e -> Hpre Hsub.
    now rewrite (yield_each_raise _ _ _ _ _ _ _ post _ _ Hpre Hsub).
Qed.

(** The two ways [_parse_all_gen] treats a line that holds the delimiter
    and whose first segment parses to a command. *)
Lemma parse_all_gen_compound text fallback keep best_match aliases t r c :
  normalise text <> "" ->
  resolve_aliases (normalise text) aliases = Ok (Some t) ->
  contains ";;" t = true ->
  parse commands self (hd "" (split_on ";;" t)) fallback keep best_match
  = Ok r ->
  cmd r = Some c ->
  (no_cmd_split c = true ->
   sub_texts_of commands self text fallback keep best_match aliases = Ok [t]
   /\ _parse_all_gen commands self text fallback keep best_match aliases
      = match parse commands self t fallback keep best_match with
        | Ok r' => ([r'], None)
        | Raise e => ([], Some e)
        end)
  /\ (no_cmd_split c = false ->
      sub_texts_of commands self text fallback keep best_match aliases
      = Ok (map strip (split_on ";;" t))
      /\ _parse_all_gen commands self text fallback keep best_match aliases
         = yield_each commands self fallback keep best_match
             (map strip (split_on ";;" t))
      /\ forall rs,
           parses commands self fallback keep best_match
             (map strip (split_on ";;" t)) rs ->
           parse_all commands self text fallback keep best_match aliases
           = Ok rs).
Proof.
  intros Hne Hres Hin Hfirst Hcmd.
  pose proof (sub_texts_of_compound commands self text fallback keep
                best_match aliases t Hne Hres Hin) as E.
  rewrite Hfirst, Hcmd in E.
  split; intros Hc; rewrite Hc in E.
  - split; [exact E|]. unfold _parse_all_gen. rewrite E. simpl.
    now destruct (parse commands self t fallback keep best_match).
  - split; [exact E|]. unfold parse_all, _parse_all_gen. rewrite E.
    split; [reflexivity|].
    intros rs Hrs. now rewrite (yield_each_ok _ _ _ _ _ _ _ Hrs).
Qed.

End ParseAllClaims.

(** C2, on a line of three sub-commands whose second is not registered:
    the generator yields the first result and ends with the exception of
    the second, and [parse_all] raises it; the third sub-command, which
    parses on its own, is never parsed and has no outcome. *)
Lemma parse_all_failure_short_circuits :
  sub_texts_of Fixtures.registry Fixtures.exact
    "open foo ;; bogus ;; open bar" false false false []
  = Ok ["open foo"; "bogus"; "open bar"]
  /\ _parse_all_gen Fixtures.registry Fixtures.exact
       "open foo ;; bogus ;; open bar" false false false []
     = ([mkParseResult (Some Fixtures.cmd_open) (Some ["foo"]) ["open"; "foo"]],
        Some (UnknownCommand "bogus"))
  /\ parse_all Fixtures.registry Fixtures.exact
       "open foo ;; bogus ;; open bar" false false false []
     = Raise (UnknownCommand "bogus")
  /\ parse Fixtures.registry Fixtures.exact "open bar" false false false
     = Ok (mkParseResult (Some Fixtures.cmd_open) (Some ["bar"]) ["open"; "bar"]).
Proof. repeat split; reflexivity. Qed.

Lemma parse_all_stops_at_first_failure_witness :
  parse_all Fixtures.registry Fixtures.exact
    "open foo ;; open-file bar" false false false []
  = Ok [mkParseResult (Some Fixtures.cmd_open) (Some ["foo"]) ["open"; "foo"];
        mkParseResult (Some Fixtures.cmd_open_file) (Some ["bar"])
          ["open-file"; "bar"]]
  /\ parse_all Fixtures.registry Fixtures.exact
       "open foo ;; open-file bar" true false false []
     = Ok [mkParseResult (Some Fixtures.cmd_open) (Some ["foo"]) ["open"; "foo"];
           mkParseResult (Some Fixtures.cmd_open_file) (Some ["bar"])
             ["open-file"; "bar"]].
Proof.
  split.
  - destruct (parse_all_stops_at_first_failure Fixtures.registry Fixtures.exact
                "open foo ;; open-file bar" false false false []
                ["open foo"; "open-file bar"] eq_refl) as (H & _).
    apply H. repeat constructor.
  - destruct (parse_all_stops_at_first_failure Fixtures.registry Fixtures.exact
                "open foo ;; open-file bar" true false false []
                ["open foo"; "open-file bar"] eq_refl) as (H & _).
    apply H. repeat constructor.
Defined.

(** C4: there is a line with the delimiter whose first segment has an
    unregistered command token and for which [parse_all] with
    [fallback=True] returns no results, although each of its sub-commands
    has a fallback result of its own: the parse of the first segment returns
    a result without command, the look at its [no_cmd_split] fails, and the
    call ends with AttributeError, which is neither EmptyInput nor
    UnknownCommand. *)
Theorem parse_all_fallback_attribute_error :
  forall (tokenizer : Tokenizer) (self : CommandParser) (keep best_match : bool),
  exists text : string,
    contains ";;" text = true
    /\ lookup (resolved_token Fixtures.registry self
                 (fst (fst (partition_space (hd "" (split_on ";;" text)))))
                 best_match) Fixtures.registry = None
    /\ parse Fixtures.registry self (hd "" (split_on ";;" text))
         true keep best_match
       = Ok (mkParseResult None None (split (hd "" (split_on ";;" text)) keep))
    /\ Forall (fun sub => exists r,
                 parse Fixtures.registry self sub true keep best_match = Ok r)
         (map strip (split_on ";;" text))
    /\ parse_all Fixtures.registry self text true keep best_match []
       = Raise AttributeError
    /\ AttributeError <> EmptyInput
    /\ forall n, AttributeError <> UnknownCommand n.
Proof.
  intros tokenizer [pm] keep best_match.
  exists "foo ;; bar".
  assert (L : lookup (resolved_token Fixtures.registry (mkCommandParser pm)
                        "foo" best_match) Fixtures.registry = None)
    by (destruct pm, best_match; reflexivity).
  split; [reflexivity|]. split; [exact L|]. split; [|split; [|split]].
  - now apply (parse_unknown_fallback _ _ _ "foo" " " "").
  - repeat constructor.
    + eexists. apply (parse_unknown_fallback _ _ _ "foo" "" ""); [reflexivity|].
      exact L.
    + eexists. apply (parse_unknown_fallback _ _ _ "bar" "" ""); [reflexivity|].
      destruct pm, best_match; reflexivity.
  - apply (parse_all_fallback_unknown_first _ _ _ _ _ _ "foo ;; bar" "foo" " " "").
    + discriminate.
    + reflexivity.
    + reflexivity.
    + reflexivity.
    + exact L.
  - split; [discriminate|]. intros n. discriminate.
Qed.

(** ** The command matcher *)

Lemma insert_by_len_perm x l : Permutation (insert_by_len x l) (x :: l).
Proof.
  induction l as [|y l IH]; simpl.
  - reflexivity.
  - destruct (String.length x <=? String.length y)%nat.
    + reflexivity.
    + rewrite IH. apply perm_swap.
Qed.

Lemma sorted_by_len_perm l : Permutation (sorted_by_len l) l.
Proof.
  induction l as [|x l IH]; simpl.
  - constructor.
  - rewrite insert_by_len_perm. now constructor.
Qed.

Lemma insert_by_len_sorted x l :
  Sorted len_le l -> Sorted len_le (insert_by_len x l).
Proof.
  induction 1 as [|y l Hs IH Hhd]; simpl.
  - repeat constructor.
  - destruct (Nat.leb_spec (String.length x) (String.length y)) as [Hle|Hlt].
    + repeat constructor; assumption.
    + constructor; [exact IH|].
      destruct l as [|z l]; simpl.
      * constructor. unfold len_le. lia.
      * destruct (Nat.leb_spec (String.length x) (String.length z)).
        -- constructor. unfold len_le. lia.
        -- constructor. now inversion Hhd.
Qed.

Lemma sorted_by_len_sorted l : StronglySorted len_le (sorted_by_len l).
Proof.
  apply Sorted_StronglySorted.
  - intros a b c. unfold len_le. lia.
  - induction l as [|x l IH]; simpl.
    + constructor.
    + now apply insert_by_len_sorted.
Qed.

(** The sort is stable: among the names of one length nothing moves. *)
Lemma insert_by_len_stable k x l :
  filter (has_len k) (insert_by_len x l) = filter (has_len k) (x :: l).
Proof.
  induction l as [|y l IH]; simpl.
  - reflexivity.
  - destruct (Nat.leb_spec (String.length x) (String.length y)) as [Hle|Hlt].
    + reflexivity.
    + simpl in *. rewrite IH. unfold has_len.
      destruct (Nat.eqb_spec (String.length x) k) as [Hx|Hx];
        destruct (Nat.eqb_spec (String.length y) k) as [Hy|Hy];
        try reflexivity.
      lia.
Qed.

Lemma sorted_by_len_stable k l :
  filter (has_len k) (sorted_by_len l) = filter (has_len k) l.
Proof.
  induction l as [|x l IH]; simpl.
  - reflexivity.
  - rewrite insert_by_len_stable. simpl. now rewrite IH.
Qed.

Lemma filter_comm {A : Type} (p q : A -> bool) (l : list A) :
  filter p (filter q l) = filter q (filter p l).
Proof.
  induction l as [|x l IH]; simpl.
  - reflexivity.
  - destruct (p x) eqn:Hp, (q x) eqn:Hq; simpl;
      rewrite ?Hp, ?Hq, IH; reflexivity.
Qed.

Lemma filter_StronglySorted {A : Type} (R : A -> A -> Prop) (p : A -> bool) l :
  StronglySorted R l -> StronglySorted R (filter p l).
Proof.
  induction 1 as [|x l Hs IH Hall]; simpl.
  - constructor.
  - destruct (p x); [|exact IH].
    constructor; [exact IH|].
    rewrite Forall_forall in *. intros y Hy.
    apply filter_In in Hy. now apply Hall.
Qed.

Lemma filter_Permutation {A : Type} (p : A -> bool) (l l' : list A) :
  Permutation l l' -> Permutation (filter p l) (filter p l').
Proof.
  induction 1 as [|x l l' _ IH|x y l|l l' l'' _ IH1 _ IH2]; simpl.
  - constructor.
  - destruct (p x); [now constructor | exact IH].
  - destruct (p x), (p y); try reflexivity. apply perm_swap.
  - now transitivity (filter p l').
Qed.

Section MatcherClaims.

Variable commands : list (string * Command).

(** C6, as amended: the matcher computes the registered names that
    contain the typed token as a substring, ordered by ascending length,
    names of equal length staying in the order the registry iterates
    them in (the sort is stable; it does not compare the names
    themselves); it returns the only match if there is exactly one, the
    first and so a shortest match if there are several and [best] is set,
    and the token unchanged if there is no match or there are several and
    [best] is not set. *)
Theorem completion_match_spec cmdstr best :
  let ms := matches commands cmdstr in
  let candidates := filter (contains cmdstr) (map fst commands) in
  Permutation ms candidates
  /\ StronglySorted len_le ms
  /\ (forall k, filter (has_len k) ms = filter (has_len k) candidates)
  /\ (forall m, ms = [m] -> _completion_match commands cmdstr best = m)
  /\ (forall m m' rest,
        ms = m :: m' :: rest ->
        _completion_match commands cmdstr true = m
        /\ _completion_match commands cmdstr false = cmdstr
        /\ Forall (len_le m) (m' :: rest))
  /\ (ms = [] -> _completion_match commands cmdstr best = cmdstr).
Proof.
  intros ms candidates. subst ms candidates. unfold matches.
  split; [|split; [|split; [|split; [|split]]]].
  - apply filter_Permutation, sorted_by_len_perm.
  - apply filter_StronglySorted, sorted_by_len_sorted.
  - intros k. rewrite filter_comm, sorted_by_len_stable. apply filter_comm.
  - intros m H. unfold _completion_match, matches. now rewrite H.
  - intros m m' rest H. unfold _completion_match, matches. rewrite H.
    repeat split.
    pose proof (filter_StronglySorted len_le (contains cmdstr) _
                  (sorted_by_len_sorted (map fst commands))) as S.
    rewrite H in S. now inversion S.
  - intros H. unfold _completion_match, matches. now rewrite H.
Qed.

End MatcherClaims.

(** C6, on a registry that iterates [ob] before [oa]: with [best] set the
    code returns [ob], the first of the two shortest matches in registry
    order, where lexical order among names of equal length gives [oa]. *)
Lemma completion_match_tie_not_lexical :
  _completion_match Fixtures.registry_tie "o" true = "ob"
  /\ Spec.spec_completion_match (map fst Fixtures.registry_tie) "o" true = "oa".
Proof. split; reflexivity. Qed.

Lemma completion_match_spec_witness :
  _completion_match Fixtures.registry "file" false = "open-file"
  /\ _completion_match Fixtures.registry "open" true = "open"
  /\ _completion_match Fixtures.registry "open" false = "open"
  /\ _completion_match Fixtures.registry "zzz" true = "zzz".
Proof.
  destruct (completion_match_spec Fixtures.registry "file" false)
    as (_ & _ & _ & H1 & _).
  destruct (completion_match_spec Fixtures.registry "open" false)
    as (_ & _ & _ & _ & H2 & _).
  destruct (completion_match_spec Fixtures.registry "zzz" true)
    as (_ & _ & _ & _ & _ & H3).
  split; [apply H1; reflexivity|].
  destruct (H2 "open" "open-file" [] eq_refl) as (Ha & Hb & _).
  split; [exact Ha|]. split; [exact Hb|].
  apply H3. reflexivity.
Defined.

(** ** Alias resolution *)

(** C8, as amended: for every text that holds a word (on a text without
    one the look at [parts[0]] fails), if the first whitespace-delimited
    word is not a key of the alias map the default, the text itself in
    [_parse_all_gen], is returned unchanged; otherwise the result is the
    mapped expansion, followed by one space and the rest of the stripped
    text if there is a rest, and followed by exactly one more space if the
    text ends with a space character; no other trailing whitespace is
    carried over, and the expansion is put in as it is, without being
    looked up again. *)
Theorem get_alias_spec text aliases default head rest :
  split_maxsplit1 (strip text) = head :: rest ->
  (lookup head aliases = None ->
   _get_alias text aliases default = Ok default)
  /\ (forall alias,
        lookup head aliases = Some alias ->
        _get_alias text aliases default
        = Ok (Some ((match rest with
                     | r :: _ => alias ++ " " ++ r
                     | [] => alias
                     end)
                    ++ (if endswith_space text then " " else "")))).
Proof.
  intros Hparts. unfold _get_alias. rewrite Hparts. split.
  - now intros ->.
  - intros alias ->.
    destruct (endswith_space text); [reflexivity|].
    now rewrite append_empty_r.
Qed.

(** On a text without a word [parts] is empty and [parts[0]] raises. *)
Lemma get_alias_no_word text aliases default :
  split_maxsplit1 (strip text) = [] ->
  _get_alias text aliases default = Raise IndexError.
Proof. unfold _get_alias. now intros ->. Qed.

(** C8, on a text that ends with a tab: the alias is expanded and the
    trailing whitespace of the text is not on the result. *)
Lemma get_alias_drops_trailing_tab :
  _get_alias ("x" ++ Fixtures.tab) [("x", "y")] (Some ("x" ++ Fixtures.tab))
  = Ok (Some "y")
  /\ Spec.trailing_whitespace ("x" ++ Fixtures.tab) = Fixtures.tab
  /\ Spec.trailing_whitespace "y" = "".
Proof. repeat split; reflexivity. Qed.

(** Two spaces at the end become one. *)
Lemma get_alias_two_spaces :
  _get_alias "x  " [("x", "y")] (Some "x  ") = Ok (Some "y ").
Proof. reflexivity. Qed.

Lemma get_alias_spec_witness :
  _get_alias "a  foo bar " [("a", "b"); ("b", "c")] (Some "a  foo bar ")
  = Ok (Some "b foo bar ")
  /\ _get_alias "a" [("a", "b"); ("b", "c")] (Some "a") = Ok (Some "b")
  /\ _get_alias "open foo" [("a", "b"); ("b", "c")] (Some "open foo")
     = Ok (Some "open foo").
Proof.
  split; [|split].
  - destruct (get_alias_spec "a  foo bar " [("a", "b"); ("b", "c")]
                (Some "a  foo bar ") "a" ["foo bar"] eq_refl) as (_ & H).
    exact (H "b" eq_refl).
  - destruct (get_alias_spec "a" [("a", "b"); ("b", "c")]
                (Some "a") "a" [] eq_refl) as (_ & H).
    exact (H "b" eq_refl).
  - destruct (get_alias_spec "open foo" [("a", "b"); ("b", "c")]
                (Some "open foo") "open" ["foo"] eq_refl) as (H & _).
    exact (H eq_refl).
Defined.

(** ** Argument splitting *)

Section SplitArgsFacts.

Context {tokenizer : Tokenizer}.

(** The loop returns the first split or a bounded second split. *)
Lemma scan_flags_cases c m argstr keep all rest i n :
  scan_flags c m argstr keep all rest i n = all
  \/ exists b, scan_flags c m argstr keep all rest i n
               = simple_split argstr keep (Some b).
Proof.
  revert i n. induction rest as [|arg rest IH]; simpl; intros i n.
  - now left.
  - destruct (startswith_dash (strip arg)); [apply IH|].
    right. eauto.
Qed.

(** With a tokenizer whose mode that keeps separators loses nothing, the
    argument tokens put together are the argument string. *)
Lemma split_args_keep_concat c argstr :
  (forall s, String.concat "" (split s true) = s) ->
  (forall s b, String.concat "" (simple_split s true b) = s) ->
  String.concat "" (_split_args c argstr true) = argstr.
Proof.
  intros Hsplit Hsimple. unfold _split_args.
  destruct argstr as [|ch argstr]; [reflexivity|]. simpl is_empty. cbv iota.
  destruct (maxsplit c) as [m|]; [|apply Hsplit].
  destruct (scan_flags_cases c m (String ch argstr) true
              (simple_split (String ch argstr) true None)
              (simple_split (String ch argstr) true None) 0 0)
    as [-> | [b ->]]; apply Hsimple.
Qed.

Lemma assemble_cmdline_keep_concat cmdstr sep args :
  String.concat "" (assemble_cmdline true cmdstr sep args)
  = cmdstr ++ sep ++ String.concat "" args.
Proof.
  unfold assemble_cmdline. destruct args as [|a args].
  - simpl. now rewrite !append_empty_r.
  - rewrite !concat_empty_cons. now rewrite append_assoc.
Qed.

End SplitArgsFacts.

(** The modelled tokenizer loses nothing when it keeps the separators. *)
Lemma tokens_keep_concat bound cur in_word s :
  String.concat "" (tokens_keep bound cur in_word s) = cur ++ s.
Proof.
  revert bound cur in_word.
  induction s as [|c s IH]; intros bound cur in_word; simpl.
  - destruct cur; simpl; [reflexivity | now rewrite append_empty_r].
  - destruct (is_space c && in_word).
    + destruct (exhausted (option_map pred bound)).
      * reflexivity.
      * rewrite concat_empty_cons, IH. reflexivity.
    + rewrite IH, append_assoc. reflexivity.
Qed.

Lemma raw_tokenize_keep_concat s bound :
  String.concat "" (raw_tokenize s true bound) = s.
Proof.
  unfold raw_tokenize. destruct (exhausted bound).
  - now destruct s.
  - apply tokens_keep_concat.
Qed.

Lemma whitespace_split_lossless s :
  String.concat "" (split (Tokenizer := whitespace_tokenizer) s true) = s.
Proof. exact (raw_tokenize_keep_concat s None). Qed.

Lemma whitespace_simple_split_lossless s b :
  String.concat "" (simple_split (Tokenizer := whitespace_tokenizer) s true b)
  = s.
Proof. exact (raw_tokenize_keep_concat s b). Qed.

Section RoundTrip.

Context {tokenizer : Tokenizer}.
Variable commands : list (string * Command).
Variable self : CommandParser.

Hypothesis split_keep_lossless :
  forall s, String.concat "" (split s true) = s.
Hypothesis simple_split_keep_lossless :
  forall s b, String.concat "" (simple_split s true b) = s.

(** C1, as amended: with a tokenizer that loses nothing when it keeps the
    separators, for every text that [parse] parses with [keep=True] the
    display tokens joined with nothing between them are the text, with
    the command token as the matcher rewrote it when a command was
    found; without partial matching they are the text itself, character
    for character. *)
Theorem display_tokens_round_trip text fallback best_match r
    cmdstr sep argstr :
  partition_space text = (cmdstr, sep, argstr) ->
  parse commands self text fallback true best_match = Ok r ->
  String.concat "" (cmdline r)
  = match cmd r with
    | Some _ => resolved_token commands self cmdstr best_match ++ sep ++ argstr
    | None => text
    end
  /\ (_partial_match self = false -> String.concat "" (cmdline r) = text).
Proof.
  intros Hp H. apply parse_ok_inv in H. rewrite Hp in H.
  assert (E : String.concat "" (cmdline r)
              = match cmd r with
                | Some _ =>
                    resolved_token commands self cmdstr best_match
                    ++ sep ++ argstr
                | None => text
                end).
  { destruct H as [(_ & _ & ->) | (c & _ & ->)]; cbn [cmdline cmd].
    - apply split_keep_lossless.
    - rewrite assemble_cmdline_keep_concat.
      now rewrite split_args_keep_concat. }
  split; [exact E|].
  intros Hpm. rewrite E. destruct (cmd r); [|reflexivity].
  unfold resolved_token. rewrite Hpm.
  symmetry. now apply partition_space_app.
Qed.

End RoundTrip.

Section RoundTripFails.

Context {tokenizer : Tokenizer}.

(** Whatever the tokenizer returns for the argument string, the display
    tokens of [open foo] joined with single spaces are not [open foo],
    also after stripping: the separator is already part of the second
    token. *)
Lemma join_with_spaces_differs r :
  parse Fixtures.registry Fixtures.exact "open foo" false true false = Ok r ->
  strip (Spec.join_with_spaces (cmdline r)) <> strip "open foo".
Proof.
  intros H. apply parse_ok_inv in H.
  change (partition_space "open foo") with ("open", " ", "foo") in H.
  cbv beta iota zeta in H.
  change (resolved_token Fixtures.registry Fixtures.exact "open" false)
    with "open" in H.
  destruct H as [(H & _) | (c & _ & ->)]; [vm_compute in H; discriminate|].
  cbn [cmdline]. unfold assemble_cmdline, Spec.join_with_spaces.
  destruct (_split_args c "foo" true) as [|a l]; simpl.
  - discriminate.
  - unfold strip.
    destruct l; simpl; destruct (rstrip_by is_space _); discriminate.
Qed.

End RoundTripFails.

(** C1, at [open foo] with [keep=True]: the display tokens are [open] and
    [ foo]; joined with single spaces they give [open  foo], with two
    spaces, which stripping does not turn into [open foo]. *)
Lemma display_tokens_join_with_spaces :
  parse Fixtures.registry Fixtures.exact "open foo" false true false
  = Ok (mkParseResult (Some Fixtures.cmd_open) (Some ["foo"]) ["open"; " foo"])
  /\ strip (Spec.join_with_spaces ["open"; " foo"]) = "open  foo"
  /\ strip "open foo" = "open foo"
  /\ "open  foo" <> "open foo".
Proof. repeat split; try reflexivity. discriminate. Qed.

(** With partial matching the first display token is the completed name,
    not what was typed. *)
Lemma display_tokens_partial_match :
  parse Fixtures.registry Fixtures.partial "file x" false true false
  = Ok (mkParseResult (Some Fixtures.cmd_open_file) (Some ["x"])
          ["open-file"; " x"]).
Proof. reflexivity. Qed.

Lemma display_tokens_round_trip_witness :
  parse Fixtures.registry Fixtures.exact "open  foo bar " false true false
  = Ok (mkParseResult (Some Fixtures.cmd_open) (Some [" foo"; " bar"; " "])
          ["open"; "  foo"; " bar"; " "])
  /\ String.concat "" ["open"; "  foo"; " bar"; " "] = "open  foo bar ".
Proof.
  assert (E : parse Fixtures.registry Fixtures.exact "open  foo bar "
                false true false
              = Ok (mkParseResult (Some Fixtures.cmd_open)
                      (Some [" foo"; " bar"; " "])
                      ["open"; "  foo"; " bar"; " "]))
    by (vm_compute; reflexivity).
  split; [exact E|].
  destruct (display_tokens_round_trip Fixtures.registry Fixtures.exact
              whitespace_split_lossless whitespace_simple_split_lossless
              "open  foo bar " false false _ "open" " " " foo bar "
              eq_refl E) as (_ & H).
  exact (H eq_refl).
Defined.

(** ** The bounded split *)

Section BoundedSplit.

Context {tokenizer : Tokenizer}.

(** With [--foo] an ordinary flag and [-v] a flag that takes an argument,
    the first positional token [bar] is found at index 2 with one flag
    argument counted, so that the second split is bounded by
    [2 + maxsplit + 1]. *)
Lemma split_args_boundary c m keep :
  maxsplit c = Some m ->
  mem "-v" (flags_with_args c) = true ->
  mem "--foo" (flags_with_args c) = false ->
  simple_split "--foo -v bar baz qux" keep None
  = ["--foo"; "-v"; "bar"; "baz"; "qux"] ->
  _split_args c "--foo -v bar baz qux" keep
  = simple_split "--foo -v bar baz qux" keep (Some (2 + m + 1)).
Proof.
  intros Hm Hv Hfoo Hfirst. unfold _split_args. simpl is_empty. cbv iota.
  rewrite Hm, Hfirst.
  unfold scan_flags.
  change (strip "--foo") with "--foo". change (strip "-v") with "-v".
  change (strip "bar") with "bar".
  change (startswith_dash "--foo") with true.
  change (startswith_dash "-v") with true.
  change (startswith_dash "bar") with false.
  cbv iota. now rewrite Hfoo, Hv.
Qed.

End BoundedSplit.

(** C3, as amended: for a command whose [maxsplit] is 2 and for which
    [-v] takes an argument ([--foo] does not), splitting
    [--foo -v bar baz qux] yields the five tokens [--foo], [-v], [bar],
    [baz], [qux]: the leading flags are skipped to find the first positional
    token at index 2, the flag argument adds one, the second split is
    bounded by 2 + 2 + 1 = 5, and with five tokens nothing lies past the
    bound to be joined.  The four tokens ending in [baz qux] are what a
    command whose [maxsplit] is 0 yields, the bound being 3. *)
Theorem split_args_bounded_example c :
  mem "-v" (flags_with_args c) = true ->
  mem "--foo" (flags_with_args c) = false ->
  (maxsplit c = Some 2 ->
   (forall (tokenizer : Tokenizer) keep,
       simple_split "--foo -v bar baz qux" keep None
       = ["--foo"; "-v"; "bar"; "baz"; "qux"] ->
       _split_args c "--foo -v bar baz qux" keep
       = simple_split "--foo -v bar baz qux" keep (Some 5))
   /\ _split_args c "--foo -v bar baz qux" false
      = ["--foo"; "-v"; "bar"; "baz"; "qux"])
  /\ (maxsplit c = Some 0 ->
      (forall (tokenizer : Tokenizer) keep,
          simple_split "--foo -v bar baz qux" keep None
          = ["--foo"; "-v"; "bar"; "baz"; "qux"] ->
          _split_args c "--foo -v bar baz qux" keep
          = simple_split "--foo -v bar baz qux" keep (Some 3))
      /\ _split_args c "--foo -v bar baz qux" false
         = ["--foo"; "-v"; "bar"; "baz qux"]).
Proof.
  intros Hv Hfoo.
  assert (Hfirst : simple_split (Tokenizer := whitespace_tokenizer)
                     "--foo -v bar baz qux" false None
                   = ["--foo"; "-v"; "bar"; "baz"; "qux"]) by reflexivity.
  split; intros Hm; split.
  - intros tokenizer keep Hfirst'.
    exact (split_args_boundary c 2 keep Hm Hv Hfoo Hfirst').
  - rewrite (split_args_boundary c 2 false Hm Hv Hfoo Hfirst). reflexivity.
  - intros tokenizer keep Hfirst'.
    exact (split_args_boundary c 0 keep Hm Hv Hfoo Hfirst').
  - rewrite (split_args_boundary c 0 false Hm Hv Hfoo Hfirst). reflexivity.
Qed.

(** C3, on a command with [maxsplit] 2 for which [-v] takes an argument:
    the split has five tokens, not the four that end in [baz qux]. *)
Lemma split_args_bounded_five_tokens :
  _split_args Fixtures.cmd_bounded2 "--foo -v bar baz qux" false
  = ["--foo"; "-v"; "bar"; "baz"; "qux"]
  /\ ["--foo"; "-v"; "bar"; "baz"; "qux"] <> ["--foo"; "-v"; "bar"; "baz qux"].
Proof. split; [reflexivity | discriminate]. Qed.

Lemma split_args_bounded_example_witness :
  _split_args Fixtures.cmd_bounded2 "--foo -v bar baz qux" false
  = ["--foo"; "-v"; "bar"; "baz"; "qux"]
  /\ _split_args Fixtures.cmd_bounded0 "--foo -v bar baz qux" false
     = ["--foo"; "-v"; "bar"; "baz qux"].
Proof.
  split.
  - destruct (split_args_bounded_example Fixtures.cmd_bounded2 eq_refl eq_refl)
      as (H & _).
    exact (proj2 (H eq_refl)).
  - destruct (split_args_bounded_example Fixtures.cmd_bounded0 eq_refl eq_refl)
      as (_ & H).
    exact (proj2 (H eq_refl)).
Defined.

(** * Further properties of the parser *)

(** ** Stripping *)

Lemma lstrip_by_head p s c s' :
  lstrip_by p s = String c s' -> p c = false.
Proof.
  induction s as [|a s IH]; simpl; [discriminate|].
  destruct (p a) eqn:E; [exact IH|].
  intros H. inversion H; subst. exact E.
Qed.

Lemma lstrip_by_fixed p c s :
  p c = false -> lstrip_by p (String c s) = String c s.
Proof. simpl. now intros ->. Qed.

Lemma rstrip_by_cons p c s :
  p c = false -> rstrip_by p (String c s) = String c (rstrip_by p s).
Proof. simpl. intros ->. now destruct (rstrip_by p s). Qed.

Lemma rstrip_by_idem p s : rstrip_by p (rstrip_by p s) = rstrip_by p s.
Proof.
  induction s as [|c s IH]; simpl; [reflexivity|].
  destruct (rstrip_by p s) as [|a r] eqn:E.
  - destruct (p c) eqn:Ec; simpl; [reflexivity | now rewrite Ec].
  - change (rstrip_by p (String c (String a r)))
      with (match rstrip_by p (String a r) with
            | EmptyString => if p c then EmptyString else String c EmptyString
            | String x y => String c (String x y)
            end).
    now rewrite IH.
Qed.

(** What [strip] returns starts with a character that is no whitespace. *)
Lemma strip_head s c s' : strip s = String c s' -> is_space c = false.
Proof.
  unfold strip.
  destruct (lstrip_by is_space s) as [|a t] eqn:E; [discriminate|].
  pose proof (lstrip_by_head _ _ _ _ E) as Ha.
  rewrite (rstrip_by_cons _ _ _ Ha). intros H. now inversion H; subst.
Qed.

Lemma strip_idem s : strip (strip s) = strip s.
Proof.
  destruct (strip s) as [|c t] eqn:E; [reflexivity|].
  pose proof (strip_head _ _ _ E) as Hc.
  unfold strip at 1. rewrite (lstrip_by_fixed _ _ _ Hc).
  rewrite <- E. unfold strip. apply rstrip_by_idem.
Qed.

Lemma space_is_space c : Ascii.eqb c " " = true -> is_space c = true.
Proof. intros H. apply Ascii.eqb_eq in H. now subst. Qed.

(** What [rstrip] returns does not end with a space. *)
Lemma rstrip_not_endswith_space s :
  endswith_space (rstrip_by is_space s) = false.
Proof.
  induction s as [|c s IH]; simpl; [reflexivity|].
  destruct (rstrip_by is_space s) as [|a r] eqn:E.
  - destruct (is_space c) eqn:Ec; [reflexivity|]. simpl.
    destruct (Ascii.eqb c " ") eqn:Es; [|reflexivity].
    apply space_is_space in Es. congruence.
  - exact IH.
Qed.

Lemma strip_not_endswith_space s : endswith_space (strip s) = false.
Proof. apply rstrip_not_endswith_space. Qed.

(** A stripped text that is not empty has a first word. *)
Lemma split_maxsplit1_stripped s :
  strip s <> "" ->
  exists head rest, split_maxsplit1 (strip s) = head :: rest.
Proof.
  intros Hne. destruct (strip s) as [|c t] eqn:E; [congruence|].
  pose proof (strip_head _ _ _ E) as Hc.
  unfold split_maxsplit1. rewrite (lstrip_by_fixed _ _ _ Hc).
  destruct (span_word (String c t)) as [w r].
  destruct (lstrip_by is_space r); eauto.
Qed.

Lemma split_maxsplit1_empty : split_maxsplit1 "" = [].
Proof. reflexivity. Qed.

Lemma normalise_stripped text : strip (normalise text) = normalise text.
Proof. unfold normalise. apply strip_idem. Qed.

(** ** Alias resolution, on its own and inside [_parse_all_gen] *)

(** X1: [_get_alias] raises, with IndexError from [parts[0]], exactly on
    the texts that are empty once stripped; on every other text it
    returns. *)
Theorem get_alias_index_error text aliases default :
  (strip text = "" <-> _get_alias text aliases default = Raise IndexError)
  /\ (strip text <> "" -> exists v, _get_alias text aliases default = Ok v).
Proof.
  assert (R : strip text <> "" ->
              exists v, _get_alias text aliases default = Ok v).
  { intros Hne. destruct (split_maxsplit1_stripped text Hne) as (h & r & E).
    unfold _get_alias. rewrite E. destruct (lookup h aliases); eauto. }
  split; [split|exact R].
  - intros E. unfold _get_alias. now rewrite E.
  - intros H. destruct (strip text) as [|c t] eqn:E; [reflexivity|].
    destruct R as (v & Hv); [discriminate|]. congruence.
Qed.

(** The alias step of [_parse_all_gen] on the text it is given there. *)
Lemma resolve_aliases_normalised text aliases :
  normalise text <> "" ->
  exists head rest,
    split_maxsplit1 (normalise text) = head :: rest
    /\ resolve_aliases (normalise text) aliases
       = Ok (Some match lookup head aliases with
                  | None => normalise text
                  | Some alias =>
                      match rest with
                      | r :: _ => alias ++ " " ++ r
                      | [] => alias
                      end
                  end).
Proof.
  intros Hne.
  assert (Hne' : strip (normalise text) <> "")
    by now rewrite normalise_stripped.
  destruct (split_maxsplit1_stripped _ Hne') as (h & r & E).
  rewrite normalise_stripped in E.
  exists h, r. split; [exact E|].
  unfold resolve_aliases, _get_alias. rewrite normalise_stripped, E.
  destruct aliases as [|a aliases]; [reflexivity|].
  destruct (lookup h (a :: aliases)); [|reflexivity].
  unfold normalise at 1. now rewrite strip_not_endswith_space.
Qed.

(** X2: inside [_parse_all_gen] the alias step never fails and never
    appends the trailing space: the text it is given is stripped, so on a
    line that is not empty it has a first word and does not end with a
    space, and the step returns the line itself when that word is no alias
    and otherwise the expansion, followed by a space and the rest of the
    line if there is a rest. *)
Theorem alias_step_in_parse_all text aliases :
  normalise text <> "" ->
  endswith_space (normalise text) = false
  /\ exists head rest,
       split_maxsplit1 (normalise text) = head :: rest
       /\ resolve_aliases (normalise text) aliases
          = Ok (Some match lookup head aliases with
                     | None => normalise text
                     | Some alias =>
                         match rest with
                         | r :: _ => alias ++ " " ++ r
                         | [] => alias
                         end
                     end).
Proof.
  intros Hne. split.
  - apply strip_not_endswith_space.
  - now apply resolve_aliases_normalised.
Qed.

Lemma alias_step_in_parse_all_witness :
  endswith_space (normalise " :o  foo bar  ") = false
  /\ exists head rest,
       split_maxsplit1 (normalise " :o  foo bar  ") = head :: rest
       /\ resolve_aliases (normalise " :o  foo bar  ") [("o", "open -t")]
          = Ok (Some match lookup head [("o", "open -t")] with
                     | None => normalise " :o  foo bar  "
                     | Some alias =>
                         match rest with
                         | r :: _ => alias ++ " " ++ r
                         | [] => alias
                         end
                     end).
Proof.
  apply (alias_step_in_parse_all " :o  foo bar  " [("o", "open -t")]).
  vm_compute. discriminate.
Defined.

(** ** What [parse] raises *)

Section ParseOutcomes.

Context {tokenizer : Tokenizer}.
Variable commands : list (string * Command).
Variable self : CommandParser.

Lemma parse_raise_inv text cmdstr sep argstr fallback keep best_match e :
  partition_space text = (cmdstr, sep, argstr) ->
  parse commands self text fallback keep best_match = Raise e ->
  fallback = false
  /\ ((cmdstr = "" /\ e = EmptyInput)
      \/ (cmdstr <> ""
          /\ lookup (resolved_token commands self cmdstr best_match) commands
             = None
          /\ e = UnknownCommand
                 (resolved_token commands self cmdstr best_match))).
Proof.
  unfold parse, resolved_token. intros ->.
  destruct cmdstr as [|c cmdstr]; destruct fallback; simpl.
  - destruct (lookup _ commands); discriminate.
  - intros H. inversion H. split; [reflexivity|]. left. now split.
  - destruct (lookup _ commands); discriminate.
  - destruct (lookup _ commands) eqn:L; [discriminate|].
    intros H. inversion H. split; [reflexivity|]. right.
    split; [discriminate|]. split; congruence.
Qed.

(** X3: with [fallback=True] [parse] never raises: whatever the text, the
    registry and the other options, it returns a result. *)
Theorem parse_fallback_never_raises text keep best_match :
  exists r, parse commands self text true keep best_match = Ok r.
Proof.
  destruct (parse commands self text true keep best_match) as [r|e] eqn:E.
  - eauto.
  - destruct (partition_space text) as [[cmdstr sep] argstr] eqn:P.
    destruct (parse_raise_inv _ _ _ _ _ _ _ _ P E) as (F & _). discriminate.
Qed.

(** X4: [parse] with [fallback=False] has exactly three outcomes, decided
    by the token in front of the first space: EmptyInput when and only when
    the token is empty; UnknownCommand, carrying the looked-up token, when
    and only when it is not empty and the looked-up token is not
    registered; and a result whose command is the one registered under the
    looked-up token when and only when it is not empty and the looked-up
    token is registered.  No other exception is raised. *)
Theorem parse_strict_outcomes text keep best_match :
  let cmdstr := fst (fst (partition_space text)) in
  let token := resolved_token commands self cmdstr best_match in
  (cmdstr = "" <->
   parse commands self text false keep best_match = Raise EmptyInput)
  /\ (forall e, parse commands self text false keep best_match = Raise e ->
        e = EmptyInput \/ e = UnknownCommand token)
  /\ (cmdstr <> "" /\ lookup token commands = None <->
      parse commands self text false keep best_match
      = Raise (UnknownCommand token))
  /\ (forall c, cmdstr <> "" /\ lookup token commands = Some c <->
        exists r, parse commands self text false keep best_match = Ok r
                  /\ cmd r = Some c).
Proof.
  intros cmdstr token. subst cmdstr token.
  destruct (partition_space text) as [[cmdstr sep] argstr] eqn:P. simpl fst.
  split; [|split; [|split]].
  - split.
    + intros ->. apply parse_empty_token. now rewrite P.
    + intros H.
      destruct (parse_raise_inv _ _ _ _ _ _ _ _ P H)
        as (_ & [(E & _) | (_ & _ & E)]); [exact E|].
      symmetry in E. now apply UnknownCommand_not_EmptyInput in E.
  - intros e H.
    destruct (parse_raise_inv _ _ _ _ _ _ _ _ P H)
      as (_ & [(_ & E) | (_ & _ & E)]); auto.
  - split.
    + intros (Hne & L). now apply (parse_unknown_strict _ _ _ _ sep argstr).
    + intros H.
      destruct (parse_raise_inv _ _ _ _ _ _ _ _ P H)
        as (_ & [(_ & E) | (Hne & L & _)]); [|now split].
      now apply UnknownCommand_not_EmptyInput in E.
  - intros c. split.
    + intros (Hne & L). unfold parse. rewrite P.
      apply is_empty_false in Hne. rewrite Hne. simpl.
      unfold resolved_token in L. rewrite L. eexists. split; reflexivity.
    + intros (r & H & Hc).
      assert (Hne : cmdstr <> "").
      { intros ->.
        assert (E : parse commands self text false keep best_match
                    = Raise EmptyInput)
          by (apply parse_empty_token; now rewrite P).
        congruence. }
      split; [exact Hne|].
      apply parse_ok_inv in H. rewrite P in H.
      destruct H as [(_ & H & _) | (c' & L & ->)]; [discriminate|].
      simpl in Hc. now inversion Hc; subst.
Qed.

End ParseOutcomes.

(** ** What [parse_all] returns and raises *)

Lemma split_go_nonempty sep skip cur s : split_go sep skip cur s <> [].
Proof.
  revert skip cur. induction s as [|c s IH]; intros skip cur; cbn [split_go].
  - discriminate.
  - destruct skip; [|apply IH].
    destruct (prefix sep (String c s)); [discriminate | apply IH].
Qed.

Section ParseAllOutcomes.

Context {tokenizer : Tokenizer}.
Variable commands : list (string * Command).
Variable self : CommandParser.

Lemma yield_each_inv fallback keep best_match subs rs oe :
  yield_each commands self fallback keep best_match subs = (rs, oe) ->
  match oe with
  | None => parses commands self fallback keep best_match subs rs
  | Some e =>
      exists pre sub post,
        subs = (pre ++ sub :: post)%list
        /\ parses commands self fallback keep best_match pre rs
        /\ parse commands self sub fallback keep best_match = Raise e
  end.
Proof.
  revert rs oe. induction subs as [|sub subs IH]; simpl; intros rs oe H.
  - inversion H; subst. constructor.
  - destruct (parse commands self sub fallback keep best_match) as [r|e] eqn:E.
    + destruct (yield_each commands self fallback keep best_match subs)
        as [ys oe'] eqn:Y.
      inversion H; subst. specialize (IH ys oe eq_refl).
      destruct oe as [e|].
      * destruct IH as (pre & s & post & -> & Hpre & Hs).
        exists (sub :: pre), s, post. repeat split; [|exact Hs].
        now constructor.
      * now constructor.
    + inversion H; subst. exists [], sub, subs. repeat split; [|exact E].
      constructor.
Qed.

Lemma sub_texts_of_nonempty text fallback keep best_match aliases subs :
  sub_texts_of commands self text fallback keep best_match aliases = Ok subs ->
  subs <> [].
Proof.
  unfold sub_texts_of.
  destruct (is_empty (normalise text)); [discriminate|].
  destruct (resolve_aliases (normalise text) aliases) as [[t|]|e]; simpl;
    try discriminate.
  destruct (contains ";;" t).
  - destruct (parse commands self _ fallback keep best_match) as [r|e]; simpl;
      [|discriminate].
    destruct (cmd r) as [c|]; [|discriminate].
    destruct (no_cmd_split c); intros H; inversion H; [discriminate|].
    unfold split_on. intros M. apply map_eq_nil in M.
    now apply split_go_nonempty in M.
  - intros H; inversion H. discriminate.
Qed.



(** X6: when [parse_all] returns, it returns at least one result, and
    exactly one for each text the line was cut into, each the result of
    parsing that text, in the order of the line. *)
Theorem parse_all_results text fallback keep best_match aliases rs :
  parse_all commands self text fallback keep best_match aliases = Ok rs ->
  rs <> []
  /\ exists subs,
       sub_texts_of commands self text fallback keep best_match aliases
       = Ok subs
       /\ List.length rs = List.length subs
       /\ parses commands self fallback keep best_match subs rs.
Proof.
  unfold parse_all, _parse_all_gen.
  destruct (sub_texts_of commands self text fallback keep best_match aliases)
    as [subs|e'] eqn:S; [|discriminate].
  destruct (yield_each commands self fallback keep best_match subs)
    as [ys [e'|]] eqn:Y; [discriminate|].
  intros H; inversion H; subst.
  apply yield_each_inv in Y.
  pose proof (sub_texts_of_nonempty _ _ _ _ _ _ S) as Hne.
  split.
  - intros ->. inversion Y; subst. congruence.
  - exists subs. split; [reflexivity|]. split; [|exact Y].
    symmetry. eapply Forall2_length. exact Y.
Qed.

(** X7: a line without the delimiter is parsed as one command: [parse_all]
    returns the single result of [parse] on the stripped, alias-resolved
    line, or raises what [parse] raises on it. *)
Theorem parse_all_single_command text fallback keep best_match aliases t :
  normalise text <> "" ->
  resolve_aliases (normalise text) aliases = Ok (Some t) ->
  contains ";;" t = false ->
  parse_all commands self text fallback keep best_match aliases
  = match parse commands self t fallback keep best_match with
    | Ok r => Ok [r]
    | Raise e => Raise e
    end.
Proof.
  intros Hne Hres Hin. unfold parse_all, _parse_all_gen.
  rewrite (sub_texts_of_single _ _ _ _ _ _ _ _ Hne Hres Hin). simpl.
  now destruct (parse commands self t fallback keep best_match).
Qed.

Lemma sub_texts_of_normalise text text' fallback keep best_match aliases :
  normalise text = normalise text' ->
  sub_texts_of commands self text fallback keep best_match aliases
  = sub_texts_of commands self text' fallback keep best_match aliases.
Proof. unfold sub_texts_of. now intros ->. Qed.

Lemma parse_all_normalise text text' fallback keep best_match aliases :
  normalise text = normalise text' ->
  _parse_all_gen commands self text fallback keep best_match aliases
  = _parse_all_gen commands self text' fallback keep best_match aliases
  /\ parse_all commands self text fallback keep best_match aliases
     = parse_all commands self text' fallback keep best_match aliases.
Proof.
  intros H. unfold parse_all, _parse_all_gen.
  now rewrite (sub_texts_of_normalise _ _ _ _ _ _ H).
Qed.

End ParseAllOutcomes.


Lemma parse_all_results_witness :
  [mkParseResult (Some Fixtures.cmd_open) (Some ["a"]) ["open"; "a"];
   mkParseResult (Some Fixtures.cmd_open_file) (Some ["b"; "c"])
     ["open-file"; "b"; "c"]] <> []
  /\ exists subs,
       sub_texts_of Fixtures.registry Fixtures.exact
         "open a ;; open-file b c" false false false [] = Ok subs
       /\ List.length
            [mkParseResult (Some Fixtures.cmd_open) (Some ["a"]) ["open"; "a"];
             mkParseResult (Some Fixtures.cmd_open_file) (Some ["b"; "c"])
               ["open-file"; "b"; "c"]]
          = List.length subs
       /\ parses Fixtures.registry Fixtures.exact false false false subs
            [mkParseResult (Some Fixtures.cmd_open) (Some ["a"]) ["open"; "a"];
             mkParseResult (Some Fixtures.cmd_open_file) (Some ["b"; "c"])
               ["open-file"; "b"; "c"]].
Proof.
  apply (parse_all_results Fixtures.registry Fixtures.exact
           "open a ;; open-file b c" false false false []).
  vm_compute. reflexivity.
Defined.

Lemma parse_all_single_command_witness :
  parse_all Fixtures.registry Fixtures.exact " :o  foo bar " false false false
    [("o", "open")]
  = Ok [mkParseResult (Some Fixtures.cmd_open) (Some ["foo"; "bar"])
          ["open"; "foo"; "bar"]].
Proof.
  assert (N : normalise " :o  foo bar " <> "") by (vm_compute; discriminate).
  assert (A : resolve_aliases (normalise " :o  foo bar ") [("o", "open")]
              = Ok (Some "open foo bar")) by (vm_compute; reflexivity).
  assert (D : contains ";;" "open foo bar" = false) by (vm_compute; reflexivity).
  rewrite (parse_all_single_command Fixtures.registry Fixtures.exact
             " :o  foo bar " false false false [("o", "open")] "open foo bar"
             N A D).
  vm_compute. reflexivity.
Defined.

(** ** Whitespace and colons around a line *)

Lemma strip_cons_space c s : is_space c = true -> strip (String c s) = strip s.
Proof. unfold strip. simpl. now intros ->. Qed.

Lemma rstrip_snoc_space c s :
  is_space c = true ->
  rstrip_by is_space (s ++ String c "") = rstrip_by is_space s.
Proof.
  intros Hc. induction s as [|a s IH]; simpl.
  - now rewrite Hc.
  - now rewrite IH.
Qed.

Lemma lstrip_snoc_space c s :
  is_space c = true ->
  lstrip_by is_space (s ++ String c "")
  = match lstrip_by is_space s with
    | EmptyString => EmptyString
    | t => t ++ String c ""
    end.
Proof.
  intros Hc. induction s as [|a s IH]; simpl.
  - now rewrite Hc.
  - destruct (is_space a); [exact IH | reflexivity].
Qed.

Lemma strip_snoc_space c s :
  is_space c = true -> strip (s ++ String c "") = strip s.
Proof.
  intros Hc. unfold strip. rewrite (lstrip_snoc_space _ _ Hc).
  destruct (lstrip_by is_space s) as [|a t]; [reflexivity|].
  now apply rstrip_snoc_space.
Qed.

Lemma normalise_cons_space c s :
  is_space c = true -> normalise (String c s) = normalise s.
Proof. intros Hc. unfold normalise. now rewrite (strip_cons_space _ _ Hc). Qed.

Lemma normalise_snoc_space c s :
  is_space c = true -> normalise (s ++ String c "") = normalise s.
Proof. intros Hc. unfold normalise. now rewrite (strip_snoc_space _ _ Hc). Qed.

Lemma normalise_cons_colon s :
  lstrip_by is_space s = s -> normalise (String ":" s) = normalise s.
Proof.
  intros Hs. unfold normalise, strip at 2 4. rewrite Hs.
  rewrite (lstrip_by_fixed is_space ":" s eq_refl).
  rewrite (rstrip_by_cons is_space ":" s eq_refl).
  reflexivity.
Qed.

Section Surroundings.

Context {tokenizer : Tokenizer}.
Variable commands : list (string * Command).
Variable self : CommandParser.

(** X8: [parse_all] does not see whitespace in front of a line or after
    it, nor a colon in front of a line that does not start with
    whitespace: with such a character added the call returns or raises
    exactly what it does without it. *)
Theorem parse_all_ignores_surroundings text fallback keep best_match aliases :
  (forall c, is_space c = true ->
     parse_all commands self (String c text) fallback keep best_match aliases
     = parse_all commands self text fallback keep best_match aliases
     /\ parse_all commands self (text ++ String c "") fallback keep best_match
          aliases
        = parse_all commands self text fallback keep best_match aliases)
  /\ (lstrip_by is_space text = text ->
      parse_all commands self (String ":" text) fallback keep best_match aliases
      = parse_all commands self text fallback keep best_match aliases).
Proof.
  split.
  - intros c Hc. split.
    + apply parse_all_normalise. now apply normalise_cons_space.
    + apply parse_all_normalise. now apply normalise_snoc_space.
  - intros Hs. apply parse_all_normalise. now apply normalise_cons_colon.
Qed.

(** X9: an alias map none of whose keys is the first word of the line has
    no effect: [parse_all] returns or raises what it does without
    aliases. *)
Theorem parse_all_unmatched_aliases text fallback keep best_match aliases :
  (forall head rest,
      split_maxsplit1 (normalise text) = head :: rest ->
      lookup head aliases = None) ->
  parse_all commands self text fallback keep best_match aliases
  = parse_all commands self text fallback keep best_match [].
Proof.
  intros H. unfold parse_all, _parse_all_gen, sub_texts_of.
  destruct (is_empty (normalise text)) eqn:N; [reflexivity|].
  apply is_empty_false in N.
  destruct (resolve_aliases_normalised text aliases N) as (h & r & E & ->).
  now rewrite (H h r E).
Qed.

End Surroundings.

Lemma parse_all_ignores_surroundings_witness :
  parse_all Fixtures.registry Fixtures.exact " open foo" false false false []
  = parse_all Fixtures.registry Fixtures.exact "open foo" false false false []
  /\ parse_all Fixtures.registry Fixtures.exact ("open foo" ++ " ")
       false false false []
     = parse_all Fixtures.registry Fixtures.exact "open foo" false false false []
  /\ parse_all Fixtures.registry Fixtures.exact ":open foo" false false false []
     = parse_all Fixtures.registry Fixtures.exact "open foo" false false false [].
Proof.
  destruct (parse_all_ignores_surroundings Fixtures.registry Fixtures.exact
              "open foo" false false false []) as (H1 & H2).
  destruct (H1 " "%char eq_refl) as (Ha & Hb).
  split; [exact Ha|]. split; [exact Hb|].
  apply H2. reflexivity.
Defined.

Lemma parse_all_unmatched_aliases_witness :
  parse_all Fixtures.registry Fixtures.exact "open foo" false false false
    [("o", "open-file")]
  = parse_all Fixtures.registry Fixtures.exact "open foo" false false false [].
Proof.
  apply parse_all_unmatched_aliases.
  intros head rest H. vm_compute in H. inversion H. reflexivity.
Defined.

(** ** [parse_all] with fallback *)

Section FallbackOutcomes.

Context {tokenizer : Tokenizer}.
Variable commands : list (string * Command).
Variable self : CommandParser.

Lemma parse_fallback_ok text keep best_match :
  exists r, parse commands self text true keep best_match = Ok r.
Proof.
  destruct (parse commands self text true keep best_match) as [r|e] eqn:E.
  - eauto.
  - destruct (partition_space text) as [[cmdstr sep] argstr] eqn:P.
    destruct (parse_raise_inv _ _ _ _ _ _ _ _ _ _ P E) as (F & _).
    discriminate.
Qed.

Lemma yield_each_fallback_ok keep best_match subs :
  exists rs, yield_each commands self true keep best_match subs = (rs, None).
Proof.
  induction subs as [|sub subs (rs & IH)]; simpl.
  - eauto.
  - destruct (parse_fallback_ok sub keep best_match) as (r & ->).
    rewrite IH. eauto.
Qed.

(** X10: with [fallback=True], on a line that is not empty [parse_all]
    raises AttributeError when, and only when, the line holds the delimiter
    and the command token of its first segment, as looked up, is not
    registered; on every other such line it returns results. *)
Theorem parse_all_fallback_outcomes text keep best_match aliases t :
  normalise text <> "" ->
  resolve_aliases (normalise text) aliases = Ok (Some t) ->
  (contains ";;" t = true
   /\ lookup (resolved_token commands self
                (fst (fst (partition_space (hd "" (split_on ";;" t)))))
                best_match) commands = None
   <-> parse_all commands self text true keep best_match aliases
       = Raise AttributeError)
  /\ (contains ";;" t = false
      \/ lookup (resolved_token commands self
                   (fst (fst (partition_space (hd "" (split_on ";;" t)))))
                   best_match) commands <> None ->
      exists rs,
        parse_all commands self text true keep best_match aliases = Ok rs).
Proof.
  intros Hne Hres.
  destruct (partition_space (hd "" (split_on ";;" t)))
    as [[cmdstr sep] argstr] eqn:P. simpl fst.
  assert (R : contains ";;" t = false
              \/ lookup (resolved_token commands self cmdstr best_match)
                   commands <> None ->
              exists rs,
                parse_all commands self text true keep best_match aliases
                = Ok rs).
  { intros H. unfold parse_all, _parse_all_gen.
    destruct (contains ";;" t) eqn:C.
    - destruct H as [H|H]; [discriminate|].
      rewrite (sub_texts_of_compound _ _ _ _ _ _ _ _ Hne Hres C).
      destruct (parse_fallback_ok (hd "" (split_on ";;" t)) keep best_match)
        as (r & E).
      rewrite E. apply parse_ok_inv in E. rewrite P in E.
      destruct E as [(L & _) | (c & _ & ->)]; [contradiction|]. simpl.
      destruct (no_cmd_split c).
      + destruct (yield_each_fallback_ok keep best_match [t]) as (rs & ->).
        eauto.
      + destruct (yield_each_fallback_ok keep best_match
                    (map strip (split_on ";;" t))) as (rs & ->).
        eauto.
    - rewrite (sub_texts_of_single _ _ _ _ _ _ _ _ Hne Hres C).
      destruct (yield_each_fallback_ok keep best_match [t]) as (rs & ->).
      eauto. }
  split; [split|exact R].
  - intros (C & L).
    now apply (parse_all_fallback_unknown_first _ _ _ _ _ _ t cmdstr sep argstr).
  - intros H.
    destruct (contains ";;" t) eqn:C.
    + split; [reflexivity|].
      destruct (lookup (resolved_token commands self cmdstr best_match)
                  commands) eqn:L; [|reflexivity].
      destruct R as (rs & E); [right; discriminate | congruence].
    + destruct R as (rs & E); [now left | congruence].
Qed.

End FallbackOutcomes.

Lemma parse_all_fallback_outcomes_witness :
  parse_all Fixtures.registry Fixtures.exact "bogus a ;; open b"
    true false false [] = Raise AttributeError
  /\ exists rs,
       parse_all Fixtures.registry Fixtures.exact "open a ;; bogus b"
         true false false [] = Ok rs.
Proof.
  split.
  - assert (N : normalise "bogus a ;; open b" <> "")
      by (vm_compute; discriminate).
    assert (A : resolve_aliases (normalise "bogus a ;; open b") []
                = Ok (Some "bogus a ;; open b")) by (vm_compute; reflexivity).
    destruct (parse_all_fallback_outcomes Fixtures.registry Fixtures.exact
                "bogus a ;; open b" false false [] _ N A) as (H & _).
    apply H. split; vm_compute; reflexivity.
  - assert (N : normalise "open a ;; bogus b" <> "")
      by (vm_compute; discriminate).
    assert (A : resolve_aliases (normalise "open a ;; bogus b") []
                = Ok (Some "open a ;; bogus b")) by (vm_compute; reflexivity).
    destruct (parse_all_fallback_outcomes Fixtures.registry Fixtures.exact
                "open a ;; bogus b" false false [] _ N A) as (_ & H).
    apply H. right. vm_compute. discriminate.
Defined.

(** ** More on the matcher *)

Lemma prefix_refl s : prefix s s = true.
Proof.
  induction s as [|c s IH]; simpl; [reflexivity|].
  destruct (ascii_dec c c); [exact IH | congruence].
Qed.

Lemma prefix_empty s : prefix "" s = true.
Proof. now destruct s. Qed.

Lemma contains_unfold sub s :
  contains sub s
  = prefix sub s
    || match s with
       | EmptyString => false
       | String _ s' => contains sub s'
       end.
Proof. destruct s; reflexivity. Qed.

Lemma contains_refl s : contains s s = true.
Proof. rewrite contains_unfold, prefix_refl. reflexivity. Qed.

Lemma contains_empty s : contains "" s = true.
Proof. destruct s; reflexivity. Qed.

Lemma prefix_length sub s :
  prefix sub s = true ->
  String.length sub <= String.length s
  /\ (String.length s <= String.length sub -> s = sub).
Proof.
  revert s. induction sub as [|a sub IH]; intros s; simpl.
  - intros _. split; [lia|].
    destruct s; simpl; [reflexivity | lia].
  - destruct s as [|b s]; simpl; [discriminate|].
    destruct (ascii_dec a b) as [->|]; [|discriminate].
    intros H. destruct (IH s H) as (H1 & H2). split; [lia|].
    intros L. f_equal. apply H2. lia.
Qed.

(** A name that contains the token is at least as long, and is the token
    if it is no longer. *)
Lemma contains_length sub s :
  contains sub s = true ->
  String.length sub <= String.length s
  /\ (String.length s <= String.length sub -> s = sub).
Proof.
  induction s as [|c s IH]; rewrite contains_unfold.
  - rewrite orb_false_r. apply prefix_length.
  - intros H. apply orb_true_iff in H. destruct H as [H|H].
    + now apply prefix_length.
    + destruct (IH H) as (H1 & _). simpl. split; lia.
Qed.

Lemma lookup_In {A : Type} k (d : list (string * A)) v :
  lookup k d = Some v -> In k (map fst d).
Proof.
  induction d as [|[k' v'] d IH]; simpl; [discriminate|].
  destruct (String.eqb_spec k k') as [->|_]; [now left|].
  intros H. right. now apply IH.
Qed.

Lemma In_lookup {A : Type} k (d : list (string * A)) :
  In k (map fst d) -> exists v, lookup k d = Some v.
Proof.
  induction d as [|[k' v'] d IH]; simpl; [contradiction|].
  intros H. destruct (String.eqb_spec k k') as [->|Hne]; [eauto|].
  destruct H as [H|H]; [congruence | now apply IH].
Qed.

Section MatcherFacts.

Variable commands : list (string * Command).

Lemma matches_In cmdstr n :
  In n (matches commands cmdstr)
  <-> In n (map fst commands) /\ contains cmdstr n = true.
Proof.
  unfold matches. rewrite filter_In.
  split; intros (H & C); (split; [|exact C]).
  - eapply Permutation_in; [apply sorted_by_len_perm | exact H].
  - eapply Permutation_in; [symmetry; apply sorted_by_len_perm | exact H].
Qed.

Lemma matches_sorted cmdstr : StronglySorted len_le (matches commands cmdstr).
Proof. apply filter_StronglySorted, sorted_by_len_sorted. Qed.

(** The matcher returns the token or the first match. *)
Lemma completion_match_cases cmdstr best :
  _completion_match commands cmdstr best = cmdstr
  \/ exists m rest,
       matches commands cmdstr = m :: rest
       /\ _completion_match commands cmdstr best = m.
Proof.
  unfold _completion_match.
  destruct (matches commands cmdstr) as [|m rest] eqn:E; simpl.
  - now left.
  - destruct rest as [|m' rest]; simpl.
    + right. eauto.
    + destruct best; simpl; [right; eauto | now left].
Qed.

Lemma completion_match_registered cmdstr best :
  In cmdstr (map fst commands) ->
  _completion_match commands cmdstr best = cmdstr.
Proof.
  intros Hin.
  assert (Hm : In cmdstr (matches commands cmdstr))
    by (apply matches_In; split; [exact Hin | apply contains_refl]).
  destruct (completion_match_cases cmdstr best) as [H | (m & rest & E & ->)];
    [exact H|].
  pose proof (matches_sorted cmdstr) as S. rewrite E in S, Hm.
  assert (Hc : contains cmdstr m = true).
  { apply (matches_In cmdstr m). rewrite E. now left. }
  apply contains_length in Hc. destruct Hc as (_ & Hc).
  destruct Hm as [Hm|Hm]; [exact Hm|].
  apply Hc. inversion S as [|? ? _ Hall]; subst.
  rewrite Forall_forall in Hall. exact (Hall _ Hm).
Qed.

(** X11: the matcher never invents a name: what it returns is the typed
    token itself or a registered name that contains the token, and no
    registered name containing the token is shorter than it. *)
Theorem completion_match_sound cmdstr best :
  _completion_match commands cmdstr best = cmdstr
  \/ (In (_completion_match commands cmdstr best) (map fst commands)
      /\ contains cmdstr (_completion_match commands cmdstr best) = true
      /\ forall n, In n (map fst commands) -> contains cmdstr n = true ->
           String.length (_completion_match commands cmdstr best)
           <= String.length n).
Proof.
  destruct (completion_match_cases cmdstr best) as [H | (m & rest & E & ->)];
    [now left|].
  right.
  assert (Hm : In m (matches commands cmdstr)) by (rewrite E; now left).
  apply matches_In in Hm. destruct Hm as (H1 & H2).
  split; [exact H1|]. split; [exact H2|].
  intros n Hn Hc.
  assert (Hn' : In n (matches commands cmdstr)) by now apply matches_In.
  pose proof (matches_sorted cmdstr) as S. rewrite E in S, Hn'.
  destruct Hn' as [->|Hn']; [lia|].
  inversion S as [|? ? _ Hall]; subst.
  rewrite Forall_forall in Hall. exact (Hall _ Hn').
Qed.

(** X12: a token that is itself a registered name is returned unchanged,
    with [best] or without it, whatever other names contain it. *)
Theorem completion_match_exact_name cmdstr best c :
  lookup cmdstr commands = Some c ->
  _completion_match commands cmdstr best = cmdstr.
Proof.
  intros L. apply completion_match_registered. eapply lookup_In. exact L.
Qed.

End MatcherFacts.

Lemma completion_match_exact_name_witness :
  _completion_match Fixtures.registry "open" true = "open"
  /\ _completion_match Fixtures.registry "open" false = "open".
Proof.
  split.
  - exact (completion_match_exact_name Fixtures.registry "open" true
             Fixtures.cmd_open eq_refl).
  - exact (completion_match_exact_name Fixtures.registry "open" false
             Fixtures.cmd_open eq_refl).
Defined.

Section PartialMatching.

Context {tokenizer : Tokenizer}.
Variable commands : list (string * Command).

(** X13: switching partial matching on changes nothing for a line whose
    command token is typed in full: when the token in front of the first
    space is a registered name, [parse] returns the same with and without
    partial matching, whatever [best_match] is. *)
Theorem parse_partial_exact_name text fallback keep best_match c :
  lookup (fst (fst (partition_space text))) commands = Some c ->
  parse commands (mkCommandParser true) text fallback keep best_match
  = parse commands (mkCommandParser false) text fallback keep best_match.
Proof.
  unfold parse. destruct (partition_space text) as [[cmdstr sep] argstr].
  simpl. intros L.
  rewrite (completion_match_registered commands cmdstr best_match
             (lookup_In _ _ _ L)).
  reflexivity.
Qed.

(** X14: with partial matching, [best_match] and [fallback=True], an empty
    command token is completed: every name contains the empty string, so on
    a registry that is not empty [parse] of a text that is empty or starts
    with a space returns a command, one registered under a name no longer
    than any other, and not the fallback result. *)
Theorem parse_empty_token_completed text keep :
  commands <> [] ->
  fst (fst (partition_space text)) = "" ->
  exists k c r,
    _completion_match commands "" true = k
    /\ lookup k commands = Some c
    /\ (forall n, In n (map fst commands) ->
          String.length k <= String.length n)
    /\ parse commands (mkCommandParser true) text true keep true = Ok r
    /\ cmd r = Some c.
Proof.
  intros Hne P.
  assert (Hm : matches commands "" <> []).
  { destruct commands as [|[k0 c0] rest]; [congruence|].
    intros E.
    assert (H : In k0 (matches ((k0, c0) :: rest) "")).
    { apply matches_In. split; [now left | apply contains_empty]. }
    rewrite E in H. contradiction. }
  destruct (matches commands "") as [|m ms] eqn:E; [congruence|].
  assert (K : _completion_match commands "" true = m).
  { unfold _completion_match. rewrite E. now destruct ms. }
  assert (Hin : In m (matches commands "")) by (rewrite E; now left).
  apply matches_In in Hin. destruct Hin as (Hin & _).
  destruct (In_lookup _ _ Hin) as (c & L).
  destruct (partition_space text) as [[cmdstr sep] argstr] eqn:P0.
  exists m, c,
    (mkParseResult (Some c) (Some (_split_args c argstr keep))
       (assemble_cmdline keep m sep (_split_args c argstr keep))).
  split; [exact K|]. split; [exact L|]. split.
  - intros n Hn.
    assert (Hn' : In n (matches commands ""))
      by (apply matches_In; split; [exact Hn | apply contains_empty]).
    pose proof (matches_sorted commands "") as S. rewrite E in S, Hn'.
    destruct Hn' as [->|Hn']; [lia|].
    inversion S as [|? ? _ Hall]; subst.
    rewrite Forall_forall in Hall. exact (Hall _ Hn').
  - unfold parse. rewrite P0.
    simpl in P. subst cmdstr. simpl. rewrite K, L. split; reflexivity.
Qed.

End PartialMatching.

Lemma parse_partial_exact_name_witness :
  parse Fixtures.registry (mkCommandParser true) "open foo" false false false
  = parse Fixtures.registry (mkCommandParser false) "open foo" false false false.
Proof.
  exact (parse_partial_exact_name Fixtures.registry "open foo" false false false
           Fixtures.cmd_open eq_refl).
Defined.

Lemma parse_empty_token_completed_witness :
  exists k c r,
    _completion_match Fixtures.registry "" true = k
    /\ lookup k Fixtures.registry = Some c
    /\ (forall n, In n (map fst Fixtures.registry) ->
          String.length k <= String.length n)
    /\ parse Fixtures.registry (mkCommandParser true) " foo" true false true
       = Ok r
    /\ cmd r = Some c.
Proof.
  apply (parse_empty_token_completed Fixtures.registry " foo" false).
  - discriminate.
  - reflexivity.
Defined.

(** ** The flag scan of [_split_args] in general *)

Section FlagScan.

Context {tokenizer : Tokenizer}.

Lemma flag_args_among_cons c a flags :
  flag_args_among c (a :: flags)
  = (if mem (strip a) (flags_with_args c) then 1 else 0)
    + flag_args_among c flags.
Proof.
  unfold flag_args_among. simpl.
  now destruct (mem (strip a) (flags_with_args c)).
Qed.

Lemma scan_flags_app c m argstr keep all flags rest i n :
  forallb is_flag flags = true ->
  scan_flags c m argstr keep all (flags ++ rest)%list i n
  = scan_flags c m argstr keep all rest
      (i + List.length flags) (n + flag_args_among c flags).
Proof.
  revert i n. induction flags as [|a flags IH]; intros i n H.
  - simpl. unfold flag_args_among. simpl. now rewrite !Nat.add_0_r.
  - simpl in H. apply andb_true_iff in H. destruct H as (Ha & Hf).
    unfold is_flag in Ha.
    change ((a :: flags) ++ rest)%list with (a :: (flags ++ rest))%list.
    cbn [scan_flags]. rewrite Ha, (IH _ _ Hf), flag_args_among_cons.
    f_equal; simpl; destruct (mem (strip a) (flags_with_args c)); lia.
Qed.

(** X15: for a command with a [maxsplit], when every token of the first
    split is a flag (starts with a dash once stripped), [_split_args]
    returns the first split as it is: no second, bounded split is made. *)
Theorem split_args_only_flags c m argstr keep :
  maxsplit c = Some m ->
  argstr <> "" ->
  forallb is_flag (simple_split argstr keep None) = true ->
  _split_args c argstr keep = simple_split argstr keep None.
Proof.
  intros Hm Hne Hf. unfold _split_args.
  apply is_empty_false in Hne. rewrite Hne, Hm.
  rewrite <- (app_nil_r (simple_split argstr keep None)) at 2.
  now rewrite (scan_flags_app _ _ _ _ _ _ [] 0 0 Hf).
Qed.

(** X16: for a command with a [maxsplit], when the first split is a run
    of flags followed by a token that is no flag, [_split_args] returns the
    argument string split again with the bound [i + maxsplit + k], where
    [i] is the number of leading flags and [k] the number of them listed
    in [flags_with_args]; what follows the first positional token plays no
    part in the bound. *)
Theorem split_args_bound c m argstr keep flags pos rest :
  maxsplit c = Some m ->
  argstr <> "" ->
  simple_split argstr keep None = (flags ++ pos :: rest)%list ->
  forallb is_flag flags = true ->
  is_flag pos = false ->
  _split_args c argstr keep
  = simple_split argstr keep
      (Some (List.length flags + m + flag_args_among c flags)).
Proof.
  intros Hm Hne Hs Hf Hp. unfold _split_args.
  apply is_empty_false in Hne. rewrite Hne, Hm, Hs.
  rewrite (scan_flags_app _ _ _ _ _ _ (pos :: rest) 0 0 Hf).
  cbn [scan_flags]. unfold is_flag in Hp. now rewrite Hp.
Qed.

End FlagScan.

Lemma split_args_only_flags_witness :
  _split_args Fixtures.cmd_bounded0 "--foo -v --bar" false
  = ["--foo"; "-v"; "--bar"].
Proof.
  rewrite (split_args_only_flags Fixtures.cmd_bounded0 0 "--foo -v --bar" false
             eq_refl);
    [reflexivity | discriminate | reflexivity].
Defined.

Lemma split_args_bound_witness :
  _split_args Fixtures.cmd_bounded0 "-v x --foo  y z" false
  = ["-v"; "x"; "--foo  y z"].
Proof.
  rewrite (split_args_bound Fixtures.cmd_bounded0 0 "-v x --foo  y z" false
             ["-v"] "x" ["--foo"; "y"; "z"] eq_refl);
    [reflexivity | discriminate | reflexivity | reflexivity | reflexivity].
Defined.

(** ** Cutting a line at the delimiter *)

Lemma concat_cons_nonempty sep x l :
  l <> [] -> String.concat sep (x :: l) = x ++ sep ++ String.concat sep l.
Proof. destruct l; [congruence | reflexivity]. Qed.

Lemma prefix_delimiter c s :
  prefix ";;" (String c s) = true ->
  c = ";"%char /\ exists s', s = String ";" s'.
Proof.
  cbn [prefix]. destruct (ascii_dec ";" c) as [<-|]; [|discriminate].
  destruct s as [|d s]; cbn [prefix]; [discriminate|].
  destruct (ascii_dec ";" d) as [<-|]; [|discriminate].
  intros _. split; [reflexivity | eauto].
Qed.

(** The pieces [text.split(';;')] returns, joined with the delimiter, are
    the text. *)
Lemma split_go_concat n : forall s cur,
  String.length s <= n ->
  String.concat ";;" (split_go ";;" 0 cur s) = cur ++ s.
Proof.
  induction n as [|n IH]; intros s cur Hn.
  - destruct s; [|simpl in Hn; lia]. simpl. now rewrite append_empty_r.
  - destruct s as [|c s]; [simpl; now rewrite append_empty_r|].
    cbn [split_go].
    destruct (prefix ";;" (String c s)) eqn:P.
    + destruct (prefix_delimiter _ _ P) as (-> & s' & ->).
      change (String.length ";;" - 1) with 1. cbn [split_go].
      rewrite concat_cons_nonempty by apply split_go_nonempty.
      rewrite IH by (simpl in Hn; lia). reflexivity.
    + rewrite IH by (simpl in Hn; lia).
      now rewrite append_assoc.
Qed.

Lemma split_on_concat s : String.concat ";;" (split_on ";;" s) = s.
Proof. unfold split_on. now rewrite (split_go_concat (String.length s)). Qed.

(** A text that holds the delimiter is cut into two pieces at least. *)
Lemma split_go_two s : forall cur,
  contains ";;" s = true ->
  exists a b l, split_go ";;" 0 cur s = a :: b :: l.
Proof.
  induction s as [|c s IH]; intros cur; rewrite contains_unfold.
  - discriminate.
  - cbn [split_go]. destruct (prefix ";;" (String c s)) eqn:P.
    + intros _.
      destruct (split_go ";;" (String.length ";;" - 1) "" s) as [|b l] eqn:E.
      * now apply split_go_nonempty in E.
      * eauto.
    + simpl. apply IH.
Qed.

(** The first piece is the start of the text, and the delimiter follows
    it. *)
Lemma split_on_first s :
  contains ";;" s = true ->
  exists rest, s = hd "" (split_on ";;" s) ++ ";;" ++ rest.
Proof.
  intros H. pose proof (split_on_concat s) as C. unfold split_on in *.
  destruct (split_go_two s "" H) as (a & b & l & E).
  rewrite E in C. rewrite E. simpl hd.
  rewrite concat_cons_nonempty in C by discriminate.
  eauto.
Qed.

Lemma partition_space_app_r a b cmdstr sep argstr :
  partition_space a = (cmdstr, sep, argstr) ->
  sep <> "" ->
  partition_space (a ++ b) = (cmdstr, sep, argstr ++ b).
Proof.
  revert cmdstr sep argstr.
  induction a as [|c a IH]; simpl; intros cmdstr sep argstr H Hs.
  - inversion H; subst. congruence.
  - destruct (Ascii.eqb c " ").
    + now inversion H; subst.
    + destruct (partition_space a) as [[x y] z].
      inversion H; subst.
      now rewrite (IH _ _ _ eq_refl Hs).
Qed.

Section WholeLine.

Context {tokenizer : Tokenizer}.
Variable commands : list (string * Command).
Variable self : CommandParser.

(** X17: a line with the delimiter whose first command does not declare
    [no_cmd_split] is cut into two pieces at least; the pieces joined with
    the delimiter are the line, so that nothing of it is lost but the
    delimiters and the whitespace stripped from each piece; and when
    [parse_all] returns, it returns as many results as there are pieces. *)
Theorem compound_split_pieces text fallback keep best_match aliases t r c :
  normalise text <> "" ->
  resolve_aliases (normalise text) aliases = Ok (Some t) ->
  contains ";;" t = true ->
  parse commands self (hd "" (split_on ";;" t)) fallback keep best_match
  = Ok r ->
  cmd r = Some c ->
  no_cmd_split c = false ->
  exists pieces,
    sub_texts_of commands self text fallback keep best_match aliases
    = Ok (map strip pieces)
    /\ String.concat ";;" pieces = t
    /\ 2 <= List.length pieces
    /\ forall rs,
         parse_all commands self text fallback keep best_match aliases = Ok rs ->
         List.length rs = List.length pieces.
Proof.
  intros Hne Hres Hin Hfirst Hcmd Hc.
  pose proof (sub_texts_of_compound commands self text fallback keep
                best_match aliases t Hne Hres Hin) as E.
  rewrite Hfirst, Hcmd, Hc in E.
  exists (split_on ";;" t). split; [exact E|]. split; [apply split_on_concat|].
  split.
  - unfold split_on. destruct (split_go_two t "" Hin) as (a & b & l & ->).
    simpl. lia.
  - intros rs H. unfold parse_all, _parse_all_gen in H. rewrite E in H.
    destruct (yield_each commands self fallback keep best_match
                (map strip (split_on ";;" t))) as [ys [e|]] eqn:Y;
      [discriminate|].
    inversion H; subst. apply yield_each_inv in Y.
    apply Forall2_length in Y. rewrite length_map in Y. now symmetry.
Qed.

(** X18: when the first segment of a line with the delimiter holds a
    space and parses to a command that declares [no_cmd_split], [parse_all]
    returns one result, for that same command, whose arguments are the
    split of everything after the first space up to the end of the line,
    delimiters included. *)
Theorem no_cmd_split_whole_line text fallback keep best_match aliases t r c
    cmdstr sep argstr :
  normalise text <> "" ->
  resolve_aliases (normalise text) aliases = Ok (Some t) ->
  contains ";;" t = true ->
  partition_space (hd "" (split_on ";;" t)) = (cmdstr, sep, argstr) ->
  sep <> "" ->
  parse commands self (hd "" (split_on ";;" t)) fallback keep best_match
  = Ok r ->
  cmd r = Some c ->
  no_cmd_split c = true ->
  exists rest,
    t = hd "" (split_on ";;" t) ++ ";;" ++ rest
    /\ parse_all commands self text fallback keep best_match aliases
       = Ok [mkParseResult (Some c)
               (Some (_split_args c (argstr ++ ";;" ++ rest) keep))
               (assemble_cmdline keep
                  (resolved_token commands self cmdstr best_match) sep
                  (_split_args c (argstr ++ ";;" ++ rest) keep))].
Proof.
  intros Hne Hres Hin P Hsep Hfirst Hcmd Hc.
  destruct (split_on_first t Hin) as (rest & Ht).
  exists rest. split; [exact Ht|].
  pose proof (sub_texts_of_compound commands self text fallback keep
                best_match aliases t Hne Hres Hin) as E.
  rewrite Hfirst, Hcmd, Hc in E.
  unfold parse_all, _parse_all_gen. rewrite E. cbn [yield_each].
  assert (Pt : partition_space t = (cmdstr, sep, argstr ++ ";;" ++ rest)).
  { rewrite Ht at 1. now apply partition_space_app_r. }
  unfold parse in Hfirst |- *. rewrite P in Hfirst. rewrite Pt.
  destruct (is_empty cmdstr && negb fallback); [discriminate|].
  unfold resolved_token.
  destruct (lookup _ commands) as [c0|]; simpl in *.
  - inversion Hfirst; subst. simpl in Hcmd. inversion Hcmd; subst.
    reflexivity.
  - destruct (negb fallback); [discriminate|].
    inversion Hfirst; subst. discriminate.
Qed.

End WholeLine.

Lemma compound_split_pieces_witness :
  exists pieces,
    sub_texts_of Fixtures.registry Fixtures.exact "open a;; open-file b ;;open"
      false false false [] = Ok (map strip pieces)
    /\ String.concat ";;" pieces = "open a;; open-file b ;;open"
    /\ 2 <= List.length pieces
    /\ forall rs,
         parse_all Fixtures.registry Fixtures.exact
           "open a;; open-file b ;;open" false false false [] = Ok rs ->
         List.length rs = List.length pieces.
Proof.
  assert (N : normalise "open a;; open-file b ;;open" <> "")
    by (vm_compute; discriminate).
  assert (A : resolve_aliases (normalise "open a;; open-file b ;;open") []
              = Ok (Some "open a;; open-file b ;;open"))
    by (vm_compute; reflexivity).
  assert (D : contains ";;" "open a;; open-file b ;;open" = true)
    by (vm_compute; reflexivity).
  assert (E : parse Fixtures.registry Fixtures.exact
                (hd "" (split_on ";;" "open a;; open-file b ;;open"))
                false false false
              = Ok (mkParseResult (Some Fixtures.cmd_open) (Some ["a"])
                      ["open"; "a"])) by (vm_compute; reflexivity).
  exact (compound_split_pieces Fixtures.registry Fixtures.exact
           "open a;; open-file b ;;open" false false false [] _ _
           Fixtures.cmd_open N A D E eq_refl eq_refl).
Defined.

Lemma no_cmd_split_whole_line_witness :
  exists rest,
    "open foo ;; bar;;baz" = "open foo " ++ ";;" ++ rest
    /\ parse_all Fixtures.registry_nosplit Fixtures.exact "open foo ;; bar;;baz"
         false false false []
       = Ok [mkParseResult (Some Fixtures.cmd_open_nosplit)
               (Some (_split_args Fixtures.cmd_open_nosplit
                        ("foo " ++ ";;" ++ rest) false))
               (assemble_cmdline false "open" " "
                  (_split_args Fixtures.cmd_open_nosplit
                     ("foo " ++ ";;" ++ rest) false))].
Proof.
  assert (N : normalise "open foo ;; bar;;baz" <> "")
    by (vm_compute; discriminate).
  assert (A : resolve_aliases (normalise "open foo ;; bar;;baz") []
              = Ok (Some "open foo ;; bar;;baz")) by (vm_compute; reflexivity).
  assert (D : contains ";;" "open foo ;; bar;;baz" = true)
    by (vm_compute; reflexivity).
  assert (P : partition_space (hd "" (split_on ";;" "open foo ;; bar;;baz"))
              = ("open", " ", "foo ")) by (vm_compute; reflexivity).
  assert (E : parse Fixtures.registry_nosplit Fixtures.exact
                (hd "" (split_on ";;" "open foo ;; bar;;baz"))
                false false false
              = Ok (mkParseResult (Some Fixtures.cmd_open_nosplit)
                      (Some ["foo"]) ["open"; "foo"]))
    by (vm_compute; reflexivity).
  exact (no_cmd_split_whole_line Fixtures.registry_nosplit Fixtures.exact
           "open foo ;; bar;;baz" false false false [] _ _
           Fixtures.cmd_open_nosplit "open" " " "foo "
           N A D P ltac:(discriminate) E eq_refl eq_refl).
Defined.

(** ** What stripping removes *)

Lemma lstrip_spec s :
  exists l, s = l ++ lstrip_by is_space s /\ all_space l = true.
Proof.
  induction s as [|c s (l & E & Hl)]; simpl.
  - exists "". now split.
  - destruct (is_space c) eqn:Hc.
    + exists (String c l). simpl. rewrite Hc, Hl. split; [now f_equal|reflexivity].
    + exists "". now split.
Qed.

Lemma rstrip_spec s :
  exists r, s = rstrip_by is_space s ++ r /\ all_space r = true.
Proof.
  induction s as [|c s (r & E & Hr)]; simpl.
  - exists "". now split.
  - destruct (rstrip_by is_space s) as [|a t] eqn:R.
    + simpl in E. subst s. destruct (is_space c) eqn:Hc.
      * exists (String c r). simpl. rewrite Hc, Hr. now split.
      * exists r. now split.
    + exists r. split; [|exact Hr]. simpl. f_equal. exact E.
Qed.

(** What [rstrip] returns does not end with a whitespace character. *)
Lemma rstrip_last s : forall s' c,
  rstrip_by is_space s = s' ++ String c "" -> is_space c = false.
Proof.
  induction s as [|a u IH]; intros s' c; simpl.
  - destruct s'; discriminate.
  - destruct (rstrip_by is_space u) as [|x y] eqn:R.
    + destruct (is_space a) eqn:Ha.
      * destruct s'; discriminate.
      * destruct s' as [|b s']; simpl; intros H; inversion H; subst.
        -- exact Ha.
        -- destruct s'; discriminate.
    + destruct s' as [|b s']; simpl; intros H; inversion H; subst.
      apply (IH s' c). assumption.
Qed.

(** [strip] returns the text without the whitespace around it. *)
Lemma strip_trimmed p : trimmed_of p (strip p).
Proof.
  unfold trimmed_of. split; [|split].
  - destruct (lstrip_spec p) as (l & E & Hl).
    destruct (rstrip_spec (lstrip_by is_space p)) as (r & E' & Hr).
    exists l, r. split; [|now split].
    unfold strip. rewrite <- E'. exact E.
  - intros c s'. apply strip_head.
  - intros s' c. unfold strip. apply rstrip_last.
Qed.

Lemma map_strip_trimmed l : Forall2 trimmed_of l (map strip l).
Proof.
  induction l as [|p l IH]; simpl; constructor;
    [apply strip_trimmed | exact IH].
Qed.

(** ** The token in front of the first space *)

Lemma partition_space_empty_token s :
  fst (fst (partition_space s)) = ""
  <-> s = "" \/ exists rest, s = String " " rest.
Proof.
  destruct s as [|c s]; simpl.
  - split; [now left | reflexivity].
  - destruct (Ascii.eqb_spec c " ") as [->|Hc]; simpl.
    + split; [right; eauto | reflexivity].
    + destruct (partition_space s) as [[a b] d]. simpl.
      split; [discriminate|].
      intros [H | (rest & H)]; [discriminate|]. inversion H. congruence.
Qed.

(** A text without a space in front of another text: the token runs on
    into the second text. *)
Lemma partition_space_app_nosep a b cmdstr argstr :
  partition_space a = (cmdstr, "", argstr) ->
  partition_space (a ++ b)
  = (a ++ fst (fst (partition_space b)),
     snd (fst (partition_space b)),
     snd (partition_space b)).
Proof.
  revert cmdstr argstr.
  induction a as [|c a IH]; simpl; intros cmdstr argstr H.
  - now destruct (partition_space b) as [[x y] z].
  - destruct (Ascii.eqb c " "); [discriminate|].
    destruct (partition_space a) as [[x y] z] eqn:P.
    inversion H; subst.
    now rewrite (IH _ _ eq_refl).
Qed.

(** ** No piece holds the delimiter *)

Lemma prefix_delimiter_cons a v w :
  v <> "" -> prefix ";;" (String a (v ++ w)) = prefix ";;" (String a v).
Proof.
  intros Hv. destruct v as [|b v]; [congruence|].
  cbn [prefix append]. destruct (ascii_dec ";" a); [|reflexivity].
  destruct (ascii_dec ";" b); [|reflexivity].
  now rewrite !prefix_empty.
Qed.

Lemma contains_delimiter_one c : contains ";;" (String c "") = false.
Proof.
  rewrite contains_unfold. cbn [prefix contains].
  destruct (ascii_dec ";" c); reflexivity.
Qed.

(** Appending a character that does not complete a delimiter. *)
Lemma contains_delimiter_snoc u c d w :
  contains ";;" (u ++ String c "") = false ->
  prefix ";;" (String c (String d w)) = false ->
  contains ";;" ((u ++ String c "") ++ String d "") = false.
Proof.
  intros H P. induction u as [|a u IH].
  - cbn [append]. rewrite contains_unfold.
    rewrite (contains_delimiter_one d), orb_false_r.
    rewrite <- (prefix_delimiter_cons c (String d "") w) by discriminate.
    exact P.
  - cbn [append] in *. rewrite contains_unfold in H.
    apply orb_false_iff in H. destruct H as (H1 & H2).
    rewrite contains_unfold. rewrite (IH H2), orb_false_r.
    rewrite prefix_delimiter_cons; [exact H1|].
    destruct u; discriminate.
Qed.

Lemma split_go_no_delimiter n : forall s cur,
  String.length s <= n ->
  contains ";;" cur = false ->
  (forall c s', s = String c s' -> contains ";;" (cur ++ String c "") = false) ->
  Forall (fun p => contains ";;" p = false) (split_go ";;" 0 cur s).
Proof.
  induction n as [|n IH]; intros s cur Hn Hcur Hnext.
  - destruct s; [|simpl in Hn; lia]. simpl. now repeat constructor.
  - destruct s as [|c s]; [simpl; now repeat constructor|].
    cbn [split_go].
    destruct (prefix ";;" (String c s)) eqn:P.
    + destruct (prefix_delimiter _ _ P) as (-> & s' & ->).
      change (String.length ";;" - 1) with 1. cbn [split_go].
      constructor; [exact Hcur|].
      apply IH; [simpl in Hn; lia | reflexivity |].
      intros d s'' _. apply contains_delimiter_one.
    + pose proof (Hnext c s eq_refl) as Hc.
      apply IH; [simpl in Hn; lia | exact Hc |].
      intros d s' ->.
      exact (contains_delimiter_snoc cur c d s' Hc P).
Qed.

Lemma split_on_no_delimiter s :
  Forall (fun p => contains ";;" p = false) (split_on ";;" s).
Proof.
  unfold split_on. apply (split_go_no_delimiter (String.length s)).
  - lia.
  - reflexivity.
  - intros c s' _. apply contains_delimiter_one.
Qed.

(** ** The decision between one command and several *)

Section SplitDecision.

Context {tokenizer : Tokenizer}.
Variable commands : list (string * Command).
Variable self : CommandParser.

(** The first command declares [no_cmd_split]: the whole line goes to
    [parse] and nothing else does. *)
Lemma line_not_split text fallback keep best_match aliases t r c :
  normalise text <> "" ->
  resolve_aliases (normalise text) aliases = Ok (Some t) ->
  contains ";;" t = true ->
  parse commands self (hd "" (split_on ";;" t)) fallback keep best_match
  = Ok r ->
  cmd r = Some c ->
  no_cmd_split c = true ->
  sub_texts_of commands self text fallback keep best_match aliases = Ok [t]
  /\ _parse_all_gen commands self text fallback keep best_match aliases
     = match parse commands self t fallback keep best_match with
       | Ok r' => ([r'], None)
       | Raise e => ([], Some e)
       end
  /\ exists rest,
       t = hd "" (split_on ";;" t) ++ ";;" ++ rest
       /\ forall cmdstr sep argstr,
            partition_space (hd "" (split_on ";;" t)) = (cmdstr, sep, argstr) ->
            (sep <> "" ->
             parse_all commands self text fallback keep best_match aliases
             = Ok [mkParseResult (Some c)
                     (Some (_split_args c (argstr ++ ";;" ++ rest) keep))
                     (assemble_cmdline keep
                        (resolved_token commands self cmdstr best_match) sep
                        (_split_args c (argstr ++ ";;" ++ rest) keep))])
            /\ (sep = "" ->
                fst (fst (partition_space t))
                = hd "" (split_on ";;" t) ++ ";;"
                  ++ fst (fst (partition_space rest))).
Proof.
  intros Hne Hres Hin Hfirst Hcmd Hc.
  pose proof (sub_texts_of_compound commands self text fallback keep
                best_match aliases t Hne Hres Hin) as E.
  rewrite Hfirst, Hcmd, Hc in E.
  split; [exact E|]. split.
  { unfold _parse_all_gen. rewrite E. simpl.
    now destruct (parse commands self t fallback keep best_match). }
  destruct (split_on_first t Hin) as (rest & Ht).
  exists rest. split; [exact Ht|].
  intros cmdstr sep argstr P. split.
  - intros Hsep.
    unfold parse_all, _parse_all_gen. rewrite E. cbn [yield_each].
    assert (Pt : partition_space t = (cmdstr, sep, argstr ++ ";;" ++ rest)).
    { rewrite Ht at 1. now apply partition_space_app_r. }
    unfold parse in Hfirst |- *. rewrite P in Hfirst. rewrite Pt.
    destruct (is_empty cmdstr && negb fallback); [discriminate|].
    unfold resolved_token.
    destruct (lookup _ commands) as [c0|]; simpl in *.
    + inversion Hfirst; subst. simpl in Hcmd. inversion Hcmd; subst.
      reflexivity.
    + destruct (negb fallback); [discriminate|].
      inversion Hfirst; subst. discriminate.
  - intros ->. rewrite Ht at 1.
    rewrite (partition_space_app_nosep _ (";;" ++ rest) _ _ P).
    cbn [fst]. simpl.
    now destruct (partition_space rest) as [[x y] z].
Qed.

(** The first command does not declare [no_cmd_split]: the line is cut at
    every delimiter and each piece is trimmed. *)
Lemma line_split text fallback keep best_match aliases t r c :
  normalise text <> "" ->
  resolve_aliases (normalise text) aliases = Ok (Some t) ->
  contains ";;" t = true ->
  parse commands self (hd "" (split_on ";;" t)) fallback keep best_match
  = Ok r ->
  cmd r = Some c ->
  no_cmd_split c = false ->
  exists pieces subs,
    String.concat ";;" pieces = t
    /\ 2 <= List.length pieces
    /\ Forall (fun p => contains ";;" p = false) pieces
    /\ Forall2 trimmed_of pieces subs
    /\ sub_texts_of commands self text fallback keep best_match aliases
       = Ok subs
    /\ _parse_all_gen commands self text fallback keep best_match aliases
       = yield_each commands self fallback keep best_match subs
    /\ forall rs,
         parses commands self fallback keep best_match subs rs ->
         parse_all commands self text fallback keep best_match aliases = Ok rs.
Proof.
  intros Hne Hres Hin Hfirst Hcmd Hc.
  pose proof (sub_texts_of_compound commands self text fallback keep
                best_match aliases t Hne Hres Hin) as E.
  rewrite Hfirst, Hcmd, Hc in E.
  exists (split_on ";;" t), (map strip (split_on ";;" t)).
  split; [apply split_on_concat|]. split.
  { unfold split_on. destruct (split_go_two t "" Hin) as (a & b & l & ->).
    simpl. lia. }
  split; [apply split_on_no_delimiter|]. split.
  { apply map_strip_trimmed. }
  split; [exact E|].
  unfold parse_all, _parse_all_gen. rewrite E. split; [reflexivity|].
  intros rs Hrs. now rewrite (yield_each_ok _ _ _ _ _ _ _ Hrs).
Qed.

End SplitDecision.

(** C5, as amended: for every line that holds the delimiter and whose
    first segment parses to a command, if that command declares
    [no_cmd_split] the whole (stripped, alias-resolved) text is parsed as one
    single command and nothing else is; when the first segment holds a
    space, the delimiter is then argument text: the one result is for that
    command and its arguments are the split of everything after the first
    space, delimiters included, and with [open] declaring [no_cmd_split],
    [open foo ;; bar] gives one result with the arguments [foo], [;;],
    [bar]; when the first segment holds no space, the command token of the
    whole text runs on through the delimiter.  If the command does not
    declare [no_cmd_split], the text is cut at every delimiter (two pieces
    at least, none holding a delimiter, which joined with the delimiter are
    the text), each piece is trimmed of the whitespace around it, and the
    trimmed pieces are parsed from left to right. *)
Theorem no_cmd_split_decides_splitting :
  (forall (tokenizer : Tokenizer) commands self text fallback keep best_match
          aliases t r c,
      normalise text <> "" ->
      resolve_aliases (normalise text) aliases = Ok (Some t) ->
      contains ";;" t = true ->
      parse commands self (hd "" (split_on ";;" t)) fallback keep best_match
      = Ok r ->
      cmd r = Some c ->
      (no_cmd_split c = true ->
       sub_texts_of commands self text fallback keep best_match aliases = Ok [t]
       /\ _parse_all_gen commands self text fallback keep best_match aliases
          = match parse commands self t fallback keep best_match with
            | Ok r' => ([r'], None)
            | Raise e => ([], Some e)
            end
       /\ exists rest,
            t = hd "" (split_on ";;" t) ++ ";;" ++ rest
            /\ forall cmdstr sep argstr,
                 partition_space (hd "" (split_on ";;" t))
                 = (cmdstr, sep, argstr) ->
                 (sep <> "" ->
                  parse_all commands self text fallback keep best_match aliases
                  = Ok [mkParseResult (Some c)
                          (Some (_split_args c (argstr ++ ";;" ++ rest) keep))
                          (assemble_cmdline keep
                             (resolved_token commands self cmdstr best_match)
                             sep
                             (_split_args c (argstr ++ ";;" ++ rest) keep))])
                 /\ (sep = "" ->
                     fst (fst (partition_space t))
                     = hd "" (split_on ";;" t) ++ ";;"
                       ++ fst (fst (partition_space rest))))
      /\ (no_cmd_split c = false ->
          exists pieces subs,
            String.concat ";;" pieces = t
            /\ 2 <= List.length pieces
            /\ Forall (fun p => contains ";;" p = false) pieces
            /\ Forall2 trimmed_of pieces subs
            /\ sub_texts_of commands self text fallback keep best_match aliases
               = Ok subs
            /\ _parse_all_gen commands self text fallback keep best_match
                 aliases
               = yield_each commands self fallback keep best_match subs
            /\ forall rs,
                 parses commands self fallback keep best_match subs rs ->
                 parse_all commands self text fallback keep best_match aliases
                 = Ok rs))
  /\ parse_all Fixtures.registry_nosplit Fixtures.exact "open foo ;; bar"
       false false false []
     = Ok [mkParseResult (Some Fixtures.cmd_open_nosplit)
             (Some ["foo"; ";;"; "bar"]) ["open"; "foo"; ";;"; "bar"]]
  /\ sub_texts_of Fixtures.registry Fixtures.exact
       " :open foo ;;open-file  bar;; open " false false false []
     = Ok ["open foo"; "open-file  bar"; "open"].
Proof.
  split; [|split].
  - intros tokenizer commands self text fallback keep best_match aliases t r c
      Hne Hres Hin Hfirst Hcmd.
    split; intros Hc.
    + now apply line_not_split with (r := r).
    + now apply line_split with (r := r) (c := c).
  - vm_compute. reflexivity.
  - vm_compute. reflexivity.
Qed.

(** C5, on [open;;bar] with [open] declaring [no_cmd_split]: the first
    segment [open] parses to that command and the whole text is parsed as
    one command, but its command token is [open;;bar], so the delimiter is
    not argument text: without fallback the parse raises UnknownCommand,
    with fallback it returns a result without command. *)
Lemma no_cmd_split_without_space :
  contains ";;" "open;;bar" = true
  /\ parse Fixtures.registry_nosplit Fixtures.exact
       (hd "" (split_on ";;" "open;;bar")) false false false
     = Ok (mkParseResult (Some Fixtures.cmd_open_nosplit) (Some []) ["open"])
  /\ no_cmd_split Fixtures.cmd_open_nosplit = true
  /\ sub_texts_of Fixtures.registry_nosplit Fixtures.exact "open;;bar"
       false false false [] = Ok ["open;;bar"]
  /\ parse_all Fixtures.registry_nosplit Fixtures.exact "open;;bar"
       false false false [] = Raise (UnknownCommand "open;;bar")
  /\ parse_all Fixtures.registry_nosplit Fixtures.exact "open;;bar"
       true false false []
     = Ok [mkParseResult None None ["open;;bar"]].
Proof. repeat split; vm_compute; reflexivity. Qed.

Lemma no_cmd_split_decides_splitting_witness :
  parse_all Fixtures.registry_nosplit Fixtures.exact "open foo ;; bar;;baz"
    false false false []
  = Ok [mkParseResult (Some Fixtures.cmd_open_nosplit)
          (Some ["foo"; ";;"; "bar;;baz"]) ["open"; "foo"; ";;"; "bar;;baz"]]
  /\ fst (fst (partition_space "open;;bar x")) = "open;;bar"
  /\ parse_all Fixtures.registry Fixtures.exact ":open foo;;open-file  bar "
       false false false []
     = Ok [mkParseResult (Some Fixtures.cmd_open) (Some ["foo"]) ["open"; "foo"];
           mkParseResult (Some Fixtures.cmd_open_file) (Some ["bar"])
             ["open-file"; "bar"]].
Proof.
  destruct no_cmd_split_decides_splitting as (G & _).
  split; [|split].
  - assert (N : normalise "open foo ;; bar;;baz" <> "")
      by (vm_compute; discriminate).
    assert (A : resolve_aliases (normalise "open foo ;; bar;;baz") []
                = Ok (Some "open foo ;; bar;;baz"))
      by (vm_compute; reflexivity).
    assert (D : contains ";;" "open foo ;; bar;;baz" = true)
      by (vm_compute; reflexivity).
    assert (E : parse Fixtures.registry_nosplit Fixtures.exact
                  (hd "" (split_on ";;" "open foo ;; bar;;baz"))
                  false false false
                = Ok (mkParseResult (Some Fixtures.cmd_open_nosplit)
                        (Some ["foo"]) ["open"; "foo"]))
      by (vm_compute; reflexivity).
    destruct (G _ _ _ _ _ _ _ _ _ _ Fixtures.cmd_open_nosplit N A D E eq_refl)
      as (H & _).
    destruct (H eq_refl) as (_ & _ & rest & Ht & Hp).
    assert (P : partition_space (hd "" (split_on ";;" "open foo ;; bar;;baz"))
                = ("open", " ", "foo ")) by (vm_compute; reflexivity).
    destruct (Hp _ _ _ P) as (Hs & _).
    rewrite Hs by discriminate.
    assert (R : rest = " bar;;baz").
    { vm_compute in Ht. inversion Ht. reflexivity. }
    rewrite R. vm_compute. reflexivity.
  - assert (N : normalise "open;;bar x" <> "") by (vm_compute; discriminate).
    assert (A : resolve_aliases (normalise "open;;bar x") []
                = Ok (Some "open;;bar x")) by (vm_compute; reflexivity).
    assert (D : contains ";;" "open;;bar x" = true) by (vm_compute; reflexivity).
    assert (E : parse Fixtures.registry_nosplit Fixtures.exact
                  (hd "" (split_on ";;" "open;;bar x")) false false false
                = Ok (mkParseResult (Some Fixtures.cmd_open_nosplit)
                        (Some []) ["open"]))
      by (vm_compute; reflexivity).
    destruct (G _ _ _ _ _ _ _ _ _ _ Fixtures.cmd_open_nosplit N A D E eq_refl)
      as (H & _).
    destruct (H eq_refl) as (_ & _ & rest & Ht & Hp).
    assert (P : partition_space (hd "" (split_on ";;" "open;;bar x"))
                = ("open", "", "")) by (vm_compute; reflexivity).
    destruct (Hp _ _ _ P) as (_ & Hs).
    rewrite (Hs eq_refl).
    assert (R : rest = "bar x").
    { vm_compute in Ht. inversion Ht. reflexivity. }
    rewrite R. vm_compute. reflexivity.
  - assert (N : normalise ":open foo;;open-file  bar " <> "")
      by (vm_compute; discriminate).
    assert (A : resolve_aliases (normalise ":open foo;;open-file  bar ") []
                = Ok (Some "open foo;;open-file  bar"))
      by (vm_compute; reflexivity).
    assert (D : contains ";;" "open foo;;open-file  bar" = true)
      by (vm_compute; reflexivity).
    assert (E : parse Fixtures.registry Fixtures.exact
                  (hd "" (split_on ";;" "open foo;;open-file  bar"))
                  false false false
                = Ok (mkParseResult (Some Fixtures.cmd_open)
                        (Some ["foo"]) ["open"; "foo"]))
      by (vm_compute; reflexivity).
    destruct (G _ _ _ _ _ _ _ _ _ _ Fixtures.cmd_open N A D E eq_refl)
      as (_ & H).
    destruct (H eq_refl) as (pieces & subs & _ & _ & _ & _ & Hs & _ & Hr).
    apply Hr.
    assert (S : subs = ["open foo"; "open-file  bar"]).
    { vm_compute in Hs. inversion Hs. reflexivity. }
    rewrite S.
    constructor; [vm_compute; reflexivity|].
    constructor; [vm_compute; reflexivity|].
    constructor.
Defined.

(** ** Empty input *)

Section EmptyInputClaims.

Context {tokenizer : Tokenizer}.
Variable commands : list (string * Command).
Variable self : CommandParser.

(** C10, as amended: [parse_all] raises EmptyInput for every text that is
    empty once it is stripped, freed of its leading colons and stripped
    again, so for the empty text, for three spaces and for a lone colon;
    and [parse] without fallback raises EmptyInput when the token in front
    of the first space character is empty, which is exactly when the text
    is empty or starts with a space: no other whitespace delimits the
    token, and on no other text does [parse] raise EmptyInput. *)
Theorem empty_input_raises :
  (forall text fallback keep best_match aliases,
      normalise text = "" ->
      parse_all commands self text fallback keep best_match aliases
      = Raise EmptyInput)
  /\ (forall fallback keep best_match aliases,
        parse_all commands self "" fallback keep best_match aliases
        = Raise EmptyInput
        /\ parse_all commands self "   " fallback keep best_match aliases
           = Raise EmptyInput
        /\ parse_all commands self ":" fallback keep best_match aliases
           = Raise EmptyInput)
  /\ (forall text keep best_match,
        fst (fst (partition_space text)) = "" ->
        parse commands self text false keep best_match = Raise EmptyInput)
  /\ (forall text keep best_match,
        parse commands self text false keep best_match = Raise EmptyInput
        <-> text = "" \/ exists rest, text = String " " rest).
Proof.
  split; [|split; [|split]].
  - intros. now apply parse_all_empty.
  - intros. repeat split; now apply parse_all_empty.
  - intros. now apply parse_empty_token.
  - intros text keep best_match. split.
    + intros H. apply partition_space_empty_token.
      destruct (partition_space text) as [[cmdstr sep] argstr] eqn:P.
      destruct (parse_raise_inv _ _ _ _ _ _ _ _ _ _ P H)
        as (_ & [(E & _) | (_ & _ & E)]); [exact E|].
      symmetry in E. now apply UnknownCommand_not_EmptyInput in E.
    + intros H. apply parse_empty_token.
      now apply partition_space_empty_token.
Qed.

End EmptyInputClaims.

(** C10, on a text that is a lone tab: it holds no word and nothing
    stands in front of its first whitespace character, yet the token in
    front of its first space is the tab itself, and [parse] without
    fallback looks it up and raises UnknownCommand, not EmptyInput. *)
Lemma parse_tab_not_empty_input :
  split_maxsplit1 Fixtures.tab = []
  /\ fst (span_word Fixtures.tab) = ""
  /\ fst (fst (partition_space Fixtures.tab)) = Fixtures.tab
  /\ parse Fixtures.registry Fixtures.exact Fixtures.tab false false false
     = Raise (UnknownCommand Fixtures.tab)
  /\ UnknownCommand Fixtures.tab <> EmptyInput.
Proof.
  repeat split; try reflexivity. apply UnknownCommand_not_EmptyInput.
Qed.

Lemma empty_input_raises_witness :
  parse_all Fixtures.registry Fixtures.exact " :: " false false false []
  = Raise EmptyInput
  /\ parse Fixtures.registry Fixtures.exact " open" false false false
     = Raise EmptyInput
  /\ parse Fixtures.registry Fixtures.exact "" false false false
     = Raise EmptyInput.
Proof.
  destruct (empty_input_raises Fixtures.registry Fixtures.exact)
    as (H1 & _ & H3 & H4).
  split; [|split].
  - apply H1. reflexivity.
  - apply H3. reflexivity.
  - apply H4. now left.
Defined.
